(** * nu-shell: a shallow embedding of the command-execution core

    The development follows the layout of the repository:
    - [app/parsers/commandParser.js]     the tokenizer [parseCommandLine];
    - [app/parsers/pipelineParser.js]    the pipeline splitter [parsePipeline];
    - [app/parsers/redirectionParser.js] the redirection extractor
      [parseRedirection];
    - [app/history/historyManager.js]    the history manager;
    - [app/command/builtins.js]          the internal commands;
    - [app/command/executor.js]          [executeSingleCommand] and
      [executePipeline].

    JavaScript strings are modelled as [string], arrays as [list], [null] and
    [undefined] as [None].  Code that writes to the terminal, to a stream or
    to the file system is written in state-passing style over explicit
    records. *)

From Stdlib Require Import ZArith Lia Ascii DecimalString.
From stdpp Require Import base decidable option list strings gmap.


(* ===================================================================== *)
(** * Part I: the program                                                 *)
(* ===================================================================== *)

(** ** Characters and string helpers *)

Definition LF : ascii := "010"%char.
Definition TAB : ascii := "009"%char.
Definition SPACE : ascii := " "%char.
Definition BACKSLASH : ascii := "\"%char.
Definition SQUOTE : ascii := "'"%char.
Definition DQUOTE : ascii := "034"%char.

(** The one-character string holding [c]. *)
Definition str (c : ascii) : string := String c EmptyString.

(** [s +:+ "\n"]. *)
Definition newline : string := str LF.

(** The characters of a string, and whether [c] is one of them. *)
Definition chars (s : string) : list ascii := String.list_ascii_of_string s.

Definition has_char (c : ascii) (s : string) : Prop := c ∈ chars s.

(** ** The terminal: [process.stdout] and [process.stderr]

    Each descriptor is modelled as the concatenation of everything written
    to it so far. *)

Record Console := mkConsole {
  stdout : string;
  stderr : string
}.

Definition console0 : Console := mkConsole EmptyString EmptyString.

(** [process.stdout.write(s)] *)
Definition stdout_write (s : string) (c : Console) : Console :=
  mkConsole (stdout c +:+ s) (stderr c).

(** [console.log(s)]: the line [s] on standard output. *)
Definition console_log (s : string) (c : Console) : Console :=
  stdout_write (s +:+ newline) c.

(** [console.error(s)]: the line [s] on standard error. *)
Definition console_error (s : string) (c : Console) : Console :=
  mkConsole (stdout c) (stderr c +:+ s +:+ newline).

(** ** pipelineParser.js *)

Definition pipe_syntax_error : string :=
  "syntax error near unexpected token '|'".

(** The [for (const token of tokens)] loop of [parsePipeline].  [None] is
    the early [return []] taken when a pipe is met while [currentCommand]
    is empty; otherwise the loop ends with [commands] and [currentCommand]. *)
Fixpoint parsePipeline_loop (tokens : list string)
    (commands : list (list string)) (currentCommand : list string)
    : option (list (list string) * list string) :=
  match tokens with
  | [] => Some (commands, currentCommand)
  | token :: tokens' =>
      if decide (token = "|") then
        if decide (length currentCommand = 0) then None
        else parsePipeline_loop tokens' (commands ++ [currentCommand]) []
      else parsePipeline_loop tokens' commands (currentCommand ++ [token])
  end.

Definition parsePipeline (tokens : list string) (c : Console)
    : Console * list (list string) :=
  match parsePipeline_loop tokens [] [] with
  | None => (console_log pipe_syntax_error c, [])
  | Some (commands, currentCommand) =>
      if decide (length currentCommand = 0 ∧ 0 < length commands) then
        (console_log pipe_syntax_error c, [])
      else if decide (0 < length currentCommand) then
        (c, commands ++ [currentCommand])
      else (c, commands)
  end.

(** A pipe that would leave a stage empty: at the very start, at the very
    end, or directly after another pipe. *)
Definition empty_stage (tokens : list string) : Prop :=
  (∃ rest, tokens = "|" :: rest) ∨
  (∃ pre, tokens = pre ++ ["|"]) ∨
  (∃ pre rest, tokens = pre ++ "|" :: "|" :: rest).

(** ** redirectionParser.js *)

Record RedirectionInfo := mkRedirectionInfo {
  hasRedirection : bool;
  commandTokens : list string;
  redirectFile : option string;
  redirectFd : nat;
  isAppend : bool
}.

(** What the scanning loop has assigned when it leaves through [break]:
    [redirectIndex], [redirectFd], [isAppend] and [redirectFile]. *)
Record RedirectionFound := mkFound {
  foundIndex : nat;
  foundFd : nat;
  foundAppend : bool;
  foundFile : option string
}.

(** The [for (let i = 0; i < tokens.length; i++)] loop of
    [parseRedirection]: [rest] is [tokens] from index [i] on.  The
    expression [i + k < tokens.length ? tokens[i + k] : null] is the list
    lookup [tokens !! (i + k)], and the guard
    [i + 1 < tokens.length && tokens[i + 1] === op] is
    [tokens !! (i + 1) = Some op].  [None] means the loop ran to the end
    with [redirectIndex] still [-1]. *)
Fixpoint parseRedirection_scan (tokens : list string) (i : nat)
    (rest : list string) : option RedirectionFound :=
  match rest with
  | [] => None
  | token :: rest' =>
      if decide (token = ">") then
        Some (mkFound i 1 false (tokens !! (i + 1)))
      else if decide (token = ">>") then
        Some (mkFound i 1 true (tokens !! (i + 1)))
      else if decide (token = "1>") then
        Some (mkFound i 1 false (tokens !! (i + 1)))
      else if decide (token = "1>>") then
        Some (mkFound i 1 true (tokens !! (i + 1)))
      else if decide (token = "2>") then
        Some (mkFound i 2 false (tokens !! (i + 1)))
      else if decide (token = "2>>") then
        Some (mkFound i 2 true (tokens !! (i + 1)))
      else if decide (token = "1" ∧ tokens !! (i + 1) = Some ">") then
        Some (mkFound i 1 false (tokens !! (i + 2)))
      else if decide (token = "1" ∧ tokens !! (i + 1) = Some ">>") then
        Some (mkFound i 1 true (tokens !! (i + 2)))
      else if decide (token = "2" ∧ tokens !! (i + 1) = Some ">") then
        Some (mkFound i 2 false (tokens !! (i + 2)))
      else if decide (token = "2" ∧ tokens !! (i + 1) = Some ">>") then
        Some (mkFound i 2 true (tokens !! (i + 2)))
      else parseRedirection_scan tokens (S i) rest'
  end.

Definition parseRedirection (tokens : list string) : RedirectionInfo :=
  match parseRedirection_scan tokens 0 tokens with
  | None => mkRedirectionInfo false tokens None 1 false
  | Some f =>
      mkRedirectionInfo true (take (foundIndex f) tokens)
        (foundFile f) (foundFd f) (foundAppend f)
  end.

(** The table of recognized operator forms of the specification: the
    one-token operators with their descriptor and mode, and the two halves
    of the split-fd forms. *)
Definition operator_table : list (string * (nat * bool)) :=
  [ (">", (1, false)); (">>", (1, true));
    ("1>", (1, false)); ("1>>", (1, true));
    ("2>", (2, false)); ("2>>", (2, true)) ].

Definition fd_table : list (string * nat) := [ ("1", 1); ("2", 2) ].

Definition mode_table : list (string * bool) := [ (">", false); (">>", true) ].

Fixpoint assoc {A} (k : string) (l : list (string * A)) : option A :=
  match l with
  | [] => None
  | (k', v) :: l' => if decide (k = k') then Some v else assoc k l'
  end.

(** The operator read at position [i] of [tokens], if there is one: its
    descriptor, its mode, and how many tokens the operator itself takes
    (1, or 2 for the split-fd forms). *)
Definition operatorAt (tokens : list string) (i : nat)
    : option (nat * bool * nat) :=
  match tokens !! i with
  | None => None
  | Some token =>
      match assoc token operator_table with
      | Some (fd, append) => Some (fd, append, 1)
      | None =>
          match assoc token fd_table, tokens !! (i + 1) with
          | Some fd, Some next =>
              match assoc next mode_table with
              | Some append => Some (fd, append, 2)
              | None => None
              end
          | _, _ => None
          end
      end
  end.

(** ** commandParser.js *)

(** [c === " " || c === "\t"] *)
Definition is_blank (c : ascii) : bool :=
  bool_decide (c = SPACE) || bool_decide (c = TAB).

(** [i + 1 < input.length && input[i + 1] === q], where [tl] is the input
    from index [i + 1] on. *)
Definition next_is (q : ascii) (tl : string) : bool :=
  match tl with
  | String c _ => bool_decide (c = q)
  | EmptyString => false
  end.

(** The input one character further on. *)
Definition advance (s : string) : string :=
  match s with
  | String _ tl => tl
  | EmptyString => EmptyString
  end.

(** [while (i < input.length && (input[i] === " " || input[i] === "\t")) i++] *)
Fixpoint skipWhitespace (s : string) : string :=
  match s with
  | String c tl => if is_blank c then skipWhitespace tl else s
  | EmptyString => EmptyString
  end.

Module CommandParser.

(** The local variables of [parseCommandLine].  The pair of [input] and
    the index [i] is kept as [rest], the input from index [i] on. *)
Record state := mkState {
  rest : string;
  tokens : list string;
  currentToken : string;
  inSingleQuotes : bool;
  inDoubleQuotes : bool
}.

Definition init (input : string) : state := mkState input [] EmptyString false false.

(** One turn of the [while (i < input.length)] loop. *)
Definition step (st : state) : state :=
  let toks := tokens st in
  let cur := currentToken st in
  let inS := inSingleQuotes st in
  let inD := inDoubleQuotes st in
  match rest st with
  | EmptyString => st
  | String char tl =>
      (* SECTION 1: backslash within double quotes *)
      if bool_decide (char = BACKSLASH) && inD && negb inS then
        match tl with
        | String nextChar tl' =>
            if bool_decide (nextChar = DQUOTE) then
              mkState tl' toks (cur +:+ str DQUOTE) inS inD
            else if bool_decide (nextChar = BACKSLASH) then
              mkState tl' toks (cur +:+ str BACKSLASH) inS inD
            else
              mkState tl' toks (cur +:+ str BACKSLASH +:+ str nextChar)
                inS inD
        | EmptyString => mkState tl toks (cur +:+ str char) inS inD
        end
      (* SECTION 2: backslash outside quotes *)
      else if bool_decide (char = BACKSLASH) && negb inS && negb inD then
        match tl with
        | String nextChar tl' => mkState tl' toks (cur +:+ str nextChar) inS inD
        | EmptyString => mkState tl toks (cur +:+ str char) inS inD
        end
      (* SECTION 3: single quotes *)
      else if bool_decide (char = SQUOTE) && negb inD then
        if inS then
          if next_is SQUOTE tl then mkState (advance tl) toks cur inS inD
          else if next_is SQUOTE tl then mkState (advance tl) toks cur true inD
          else mkState tl toks cur false inD
        else
          if next_is SQUOTE tl then mkState (advance tl) toks cur inS inD
          else mkState tl toks cur true inD
      (* SECTION 4: double quotes *)
      else if bool_decide (char = DQUOTE) && negb inS then
        if inD then
          if next_is DQUOTE tl then mkState (advance tl) toks cur inS inD
          else if next_is DQUOTE tl then mkState (advance tl) toks cur inS true
          else mkState tl toks cur inS false
        else
          if next_is DQUOTE tl then mkState (advance tl) toks cur inS inD
          else mkState tl toks cur inS true
      (* SECTION 5: build tokens or separate on spaces *)
      else if inS || inD then
        mkState tl toks (cur +:+ str char) inS inD
      else if is_blank char then
        if bool_decide (0 < String.length cur) then
          mkState (skipWhitespace (String char tl)) (toks ++ [cur]) EmptyString inS inD
        else
          mkState (skipWhitespace (String char tl)) toks cur inS inD
      else
        mkState tl toks (cur +:+ str char) inS inD
  end.

(** The [while] loop, run for at most [fuel] turns. *)
Fixpoint loop (fuel : nat) (st : state) : state :=
  match fuel with
  | 0 => st
  | S fuel' =>
      match rest st with
      | EmptyString => st
      | String _ _ => loop fuel' (step st)
      end
  end.

(** After the loop: [if (currentToken.length > 0) tokens.push(currentToken)]. *)
Definition finish (st : state) : list string :=
  if bool_decide (0 < String.length (currentToken st))
  then tokens st ++ [currentToken st]
  else tokens st.

(** Every turn consumes at least one character, so [input.length] turns
    are enough (lemma [loop_consumes_input] below). *)
Definition parseCommandLine (input : string) : list string :=
  finish (loop (String.length input) (init input)).

End CommandParser.

(** *** The tokenizer with provenance

    The same state machine, where every character appended to
    [currentToken] also records how it was read from the input.  Erasing
    the records gives back [CommandParser.parseCommandLine] (lemma
    [parseCommandLine_erase] below). *)

Inductive origin :=
  | Unquoted       (* outside quotes, not after a backslash *)
  | Escaped        (* the character after a backslash, outside quotes, or
                      the quote or backslash after a backslash inside
                      double quotes *)
  | SingleQuoted   (* between single quotes *)
  | DoubleQuoted.  (* between double quotes *)

Definition tagged := list (ascii * origin).

Definition erase (t : tagged) : string := String.string_of_list_ascii (t.*1).

Module Provenance.

Record state := mkState {
  rest : string;
  tokens : list tagged;
  currentToken : tagged;
  inSingleQuotes : bool;
  inDoubleQuotes : bool
}.

Definition init (input : string) : state := mkState input [] [] false false.

Definition step (st : state) : state :=
  let toks := tokens st in
  let cur := currentToken st in
  let inS := inSingleQuotes st in
  let inD := inDoubleQuotes st in
  match rest st with
  | EmptyString => st
  | String char tl =>
      if bool_decide (char = BACKSLASH) && inD && negb inS then
        match tl with
        | String nextChar tl' =>
            if bool_decide (nextChar = DQUOTE) then
              mkState tl' toks (cur ++ [(DQUOTE, Escaped)]) inS inD
            else if bool_decide (nextChar = BACKSLASH) then
              mkState tl' toks (cur ++ [(BACKSLASH, Escaped)]) inS inD
            else
              mkState tl' toks
                (cur ++ [(BACKSLASH, DoubleQuoted); (nextChar, DoubleQuoted)])
                inS inD
        | EmptyString => mkState tl toks (cur ++ [(char, DoubleQuoted)]) inS inD
        end
      else if bool_decide (char = BACKSLASH) && negb inS && negb inD then
        match tl with
        | String nextChar tl' =>
            mkState tl' toks (cur ++ [(nextChar, Escaped)]) inS inD
        | EmptyString => mkState tl toks (cur ++ [(char, Unquoted)]) inS inD
        end
      else if bool_decide (char = SQUOTE) && negb inD then
        if inS then
          if next_is SQUOTE tl then mkState (advance tl) toks cur inS inD
          else if next_is SQUOTE tl then mkState (advance tl) toks cur true inD
          else mkState tl toks cur false inD
        else
          if next_is SQUOTE tl then mkState (advance tl) toks cur inS inD
          else mkState tl toks cur true inD
      else if bool_decide (char = DQUOTE) && negb inS then
        if inD then
          if next_is DQUOTE tl then mkState (advance tl) toks cur inS inD
          else if next_is DQUOTE tl then mkState (advance tl) toks cur inS true
          else mkState tl toks cur inS false
        else
          if next_is DQUOTE tl then mkState (advance tl) toks cur inS inD
          else mkState tl toks cur inS true
      else if inS || inD then
        mkState tl toks
          (cur ++ [(char, if inS then SingleQuoted else DoubleQuoted)]) inS inD
      else if is_blank char then
        if bool_decide (0 < length cur) then
          mkState (skipWhitespace (String char tl)) (toks ++ [cur]) [] inS inD
        else
          mkState (skipWhitespace (String char tl)) toks cur inS inD
      else
        mkState tl toks (cur ++ [(char, Unquoted)]) inS inD
  end.

Fixpoint loop (fuel : nat) (st : state) : state :=
  match fuel with
  | 0 => st
  | S fuel' =>
      match rest st with
      | EmptyString => st
      | String _ _ => loop fuel' (step st)
      end
  end.

Definition finish (st : state) : list tagged :=
  if bool_decide (0 < length (currentToken st))
  then tokens st ++ [currentToken st]
  else tokens st.

Definition parseCommandLine (input : string) : list tagged :=
  finish (loop (String.length input) (init input)).

(** Forgetting the provenance. *)
Definition erase_state (st : state) : CommandParser.state :=
  CommandParser.mkState (rest st) (erase <$> tokens st)
    (erase (currentToken st)) (inSingleQuotes st) (inDoubleQuotes st).

End Provenance.

(** Where a quote, a tab or a space of a token may come from: never from
    an unquoted, unescaped input character; a single quote never from
    between single quotes; a double quote from between double quotes only
    after a backslash. *)
Definition allowed (p : ascii * origin) : Prop :=
  match p.2 with
  | Unquoted =>
      p.1 ≠ SQUOTE ∧ p.1 ≠ DQUOTE ∧ p.1 ≠ TAB ∧ p.1 ≠ SPACE
  | SingleQuoted => p.1 ≠ SQUOTE
  | DoubleQuoted => p.1 ≠ DQUOTE
  | Escaped => True
  end.

(** The invariant of the tokenizer with provenance. *)
Definition allowed_state (st : Provenance.state) : Prop :=
  Forall (Forall allowed) (Provenance.tokens st) ∧
  Forall allowed (Provenance.currentToken st) ∧
  (Provenance.inSingleQuotes st && Provenance.inDoubleQuotes st = false).

(** Two input lines: [a<TAB>b] written between double quotes, and [it]
    followed by a double quote and [s], written between single quotes. *)
Definition line_quoted_tab : string :=
  str DQUOTE +:+ "a" +:+ str TAB +:+ "b" +:+ str DQUOTE.

Definition line_quoted_quote : string :=
  str SQUOTE +:+ "it" +:+ str DQUOTE +:+ "s" +:+ str SQUOTE.

(** ** JavaScript string and array helpers *)

(** [s.split(sep)] for a one-character separator. *)
Fixpoint split (sep : ascii) (s : string) : list string :=
  match s with
  | EmptyString => [EmptyString]
  | String c s' =>
      if decide (c = sep) then EmptyString :: split sep s'
      else match split sep s' with
           | first :: others => String c first :: others
           | [] => [String c EmptyString]
           end
  end.

(** [l.join(sep)] *)
Fixpoint join (sep : string) (l : list string) : string :=
  match l with
  | [] => EmptyString
  | [x] => x
  | x :: l' => x +:+ sep +:+ join sep l'
  end.

(** [(line) => line.length > 0] *)
Definition nonempty (line : string) : Prop := 0 < String.length line.

Global Instance nonempty_dec line : Decision (nonempty line).
Proof. unfold nonempty. apply _. Defined.

(** ** The file system, as far as the shell uses it

    [files] holds the regular files that can be read, with their contents;
    [readonly] the paths on which [fs.writeFileSync] and
    [fs.appendFileSync] throw; [directories] the directories
    [process.chdir] can enter.  Each call returns [None] where Node
    throws. *)

Record FileSystem := mkFS {
  files : gmap string string;
  readonly : gset string;
  directories : gset string
}.

Definition readFileSync (path : string) (fs : FileSystem) : option string :=
  files fs !! path.

Definition writeFileSync (path content : string) (fs : FileSystem)
    : option FileSystem :=
  if decide (path ∈ readonly fs) then None
  else Some (mkFS (<[path := content]> (files fs)) (readonly fs) (directories fs)).

Definition appendFileSync (path content : string) (fs : FileSystem)
    : option FileSystem :=
  if decide (path ∈ readonly fs) then None
  else Some (mkFS (<[path := default EmptyString (files fs !! path) +:+ content]>
                     (files fs))
                  (readonly fs) (directories fs)).

(** ** historyManager.js

    The closure variables [history] and [lastSavedIndex] of
    [createHistoryManager]. *)

Record HistoryManager := mkHistoryManager {
  history : list string;
  lastSavedIndex : nat
}.

Definition createHistoryManager : HistoryManager := mkHistoryManager [] 0.

Definition addCommand (command : string) (h : HistoryManager) : HistoryManager :=
  mkHistoryManager (history h ++ [command]) (lastSavedIndex h).

Definition getHistory (h : HistoryManager) : list string := history h.

(** [for (const line of lines) history.push(line)] *)
Definition push_all (lines : list string) (hist : list string) : list string :=
  foldl (λ acc line, acc ++ [line]) hist lines.

(** Each operation returns [result.success], the manager and the file
    system after the call. *)
Definition readFromFile (filePath : string) (h : HistoryManager)
    (fs : FileSystem) : bool * HistoryManager * FileSystem :=
  match readFileSync filePath fs with
  | None => (false, h, fs)
  | Some content =>
      let lines := filter nonempty (split LF content) in
      let hist := push_all lines [] in
      (true, mkHistoryManager hist (length hist), fs)
  end.

Definition writeToFile (filePath : string) (h : HistoryManager)
    (fs : FileSystem) : bool * HistoryManager * FileSystem :=
  let content :=
    join newline (history h) +:+
    (if decide (0 < length (history h)) then newline else EmptyString) in
  match writeFileSync filePath content fs with
  | None => (false, h, fs)
  | Some fs' =>
      (true, mkHistoryManager (history h) (length (history h)), fs')
  end.

Definition appendToFile (filePath : string) (h : HistoryManager)
    (fs : FileSystem) : bool * HistoryManager * FileSystem :=
  if decide (length (history h) ≤ lastSavedIndex h) then (true, h, fs)
  else
    let newEntries := drop (lastSavedIndex h) (history h) in
    let content := join newline newEntries +:+ newline in
    match appendFileSync filePath content fs with
    | None => (false, h, fs)
    | Some fs' =>
        (true, mkHistoryManager (history h) (length (history h)), fs')
    end.

(** An entry that survives one line of the history file: not empty and
    without a line feed. *)
Definition storable (entry : string) : Prop :=
  nonempty entry ∧ ¬ has_char LF entry.

(** The bytes of [path], the empty string while the file does not exist. *)
Definition file_bytes (path : string) (fs : FileSystem) : string :=
  default EmptyString (files fs !! path).


(** The empty file system, and one holding the read-only file [/etc/motd]
    with two lines. *)
Definition fs0 : FileSystem := mkFS ∅ ∅ ∅.

Definition fs_motd : FileSystem :=
  mkFS {[ "/etc/motd" := "welcome" +:+ newline +:+ "guest" +:+ newline ]}
       {[ "/etc/motd" ]} ∅.

(** [writeToFile(F)] followed by [readFromFile(F)]: the history and the
    file system afterwards. *)
Definition write_then_read (F : string) (h : HistoryManager) (fs : FileSystem)
    : HistoryManager * FileSystem :=
  let '(_, h1, fs1) := writeToFile F h fs in
  let '(_, h2, fs2) := readFromFile F h1 fs1 in
  (h2, fs2).

(** Two [appendToFile(F)] calls in a row: the file system after the first
    and after the second call, and the manager after each. *)
Definition append_twice (F : string) (h : HistoryManager) (fs : FileSystem)
    : (bool * HistoryManager * FileSystem) * (bool * HistoryManager * FileSystem) :=
  let r1 := appendToFile F h fs in
  let r2 := appendToFile F r1.1.2 r1.2 in
  (r1, r2).

(** ** The shell process

    What the internal commands and the executor read and change: the
    terminal, the working directory, [process.env.HOME], the file system,
    the history manager, the [PassThrough] streams created so far, the
    child processes spawned so far, and how many times the completion
    callback of the caller has run. *)

(** Who reads the readable side of a stream. *)
Inductive Consumer :=
  | Unread                       (* nobody yet *)
  | Discarded                    (* [resume()]: flowing, data dropped *)
  | PipedToStdin (pid : nat)     (* [pipe(child.stdin)] *)
  | PipedToFile (ws : nat).      (* [pipe(writeStream)] *)

(** A [PassThrough]: what was written, whether [end()] was called. *)
Record Stream := mkStream {
  written : string;
  ended : bool;
  consumer : Consumer
}.

Inductive Stdio := inherit | pipe.

Global Instance Stdio_eq_dec : EqDecision Stdio.
Proof. solve_decision. Defined.

(** A child process as [spawn(fullPath, args, {stdio, argv0})] made it,
    and who reads its standard output and its standard error. *)
Record Child := mkChild {
  childPath : string;
  childArgs : list string;
  childArgv0 : string;
  childStdio : Stdio * Stdio * Stdio;
  stdoutConsumer : Consumer;
  stderrConsumer : Consumer
}.

(** An entry of the [streams] array of [executePipeline]: a [PassThrough],
    or the standard output of a child. *)
Inductive StreamRef :=
  | PassThroughRef (id : nat)
  | ChildStdout (pid : nat).

(** A [fs.createWriteStream(path, {flags})]. *)
Record WriteStream := mkWriteStream {
  wsPath : string;
  wsAppend : bool;
  wsDestroyed : bool
}.

Record Shell := mkShell {
  console : Console;
  cwd : string;
  HOME : option string;
  fs : FileSystem;
  manager : HistoryManager;
  passThroughs : list Stream;
  children : list Child;
  writeStreams : list WriteStream;
  onCompleteCalls : nat
}.

Definition with_console (f : Console → Console) (sh : Shell) : Shell :=
  mkShell (f (console sh)) (cwd sh) (HOME sh) (fs sh) (manager sh)
    (passThroughs sh) (children sh) (writeStreams sh) (onCompleteCalls sh).

Definition with_cwd (d : string) (sh : Shell) : Shell :=
  mkShell (console sh) d (HOME sh) (fs sh) (manager sh)
    (passThroughs sh) (children sh) (writeStreams sh) (onCompleteCalls sh).

Definition with_history (r : HistoryManager * FileSystem) (sh : Shell) : Shell :=
  mkShell (console sh) (cwd sh) (HOME sh) r.2 r.1
    (passThroughs sh) (children sh) (writeStreams sh) (onCompleteCalls sh).

Definition with_fs (f : FileSystem) (sh : Shell) : Shell :=
  mkShell (console sh) (cwd sh) (HOME sh) f (manager sh)
    (passThroughs sh) (children sh) (writeStreams sh) (onCompleteCalls sh).

Definition with_passThroughs (f : list Stream → list Stream) (sh : Shell) : Shell :=
  mkShell (console sh) (cwd sh) (HOME sh) (fs sh) (manager sh)
    (f (passThroughs sh)) (children sh) (writeStreams sh) (onCompleteCalls sh).

Definition with_children (f : list Child → list Child) (sh : Shell) : Shell :=
  mkShell (console sh) (cwd sh) (HOME sh) (fs sh) (manager sh)
    (passThroughs sh) (f (children sh)) (writeStreams sh) (onCompleteCalls sh).

Definition with_writeStreams (f : list WriteStream → list WriteStream)
    (sh : Shell) : Shell :=
  mkShell (console sh) (cwd sh) (HOME sh) (fs sh) (manager sh)
    (passThroughs sh) (children sh) (f (writeStreams sh)) (onCompleteCalls sh).

(** The completion callback of the caller ([() => rl.prompt()] in
    index.js) runs once more. *)
Definition onComplete (sh : Shell) : Shell :=
  mkShell (console sh) (cwd sh) (HOME sh) (fs sh) (manager sh)
    (passThroughs sh) (children sh) (writeStreams sh) (S (onCompleteCalls sh)).

(** [stream.write(s)]; a write after [end()] adds nothing. *)
Definition stream_write (id : nat) (s : string) (sh : Shell) : Shell :=
  with_passThroughs
    (alter (λ st, if ended st then st
                  else mkStream (written st +:+ s) (ended st) (consumer st)) id)
    sh.

(** [stream.end()] *)
Definition stream_end (id : nat) (sh : Shell) : Shell :=
  with_passThroughs
    (alter (λ st, mkStream (written st) true (consumer st)) id) sh.

(** Give the readable side of [ref] its consumer: [ref.resume()] or
    [ref.pipe(child.stdin)]. *)
Definition consume (ref : StreamRef) (c : Consumer) (sh : Shell) : Shell :=
  match ref with
  | PassThroughRef id =>
      with_passThroughs
        (alter (λ st, mkStream (written st) (ended st) c) id) sh
  | ChildStdout pid =>
      with_children
        (alter (λ ch, mkChild (childPath ch) (childArgs ch) (childArgv0 ch)
                        (childStdio ch) c (stderrConsumer ch)) pid) sh
  end.

(** JavaScript truthiness of a string that may be [undefined]. *)
Definition truthy (v : option string) : bool :=
  match v with
  | Some s => bool_decide (s ≠ EmptyString)
  | None => false
  end.

(** [s.startsWith(p)] and [s.slice(n)] *)
Definition startsWith (p s : string) : bool := String.prefix p s.

Definition slice (n : nat) (s : string) : string :=
  String.substring n (String.length s - n) s.

(** [`${n}`] for a non-negative integer. *)
Definition show_nat (n : nat) : string :=
  DecimalString.NilZero.string_of_uint (Nat.to_uint n).


(** ** builtins.js *)

Definition BUILTINS : list string :=
  ["echo"; "exit"; "type"; "pwd"; "cd"; "history"].

Definition isBuiltin (command : string) : bool :=
  bool_decide (command ∈ BUILTINS).

(** [writeOutput(output, outputStream)]: write and end the stream when
    there is one, write to [process.stdout] otherwise. *)
Definition writeOutput (output : string) (outputStream : option nat)
    (sh : Shell) : Shell :=
  match outputStream with
  | Some id => stream_end id (stream_write id output sh)
  | None => with_console (stdout_write output) sh
  end.

(** [if (outputStream) outputStream.end()] *)
Definition end_if_stream (outputStream : option nat) (sh : Shell) : Shell :=
  match outputStream with
  | Some id => stream_end id sh
  | None => sh
  end.

(** White space as [parseInt] and [String.prototype.trim] see it.
    Strings are read as sequences of code units below 256; the white
    space of that range is tab, line feed, vertical tab, form feed,
    carriage return, space and the no-break space (code unit 160). *)
Definition isWhiteSpace (c : ascii) : bool :=
  Ascii.is_space c || bool_decide (c = "160"%char).

(** [s.trimStart()] *)
Fixpoint trimStart (s : string) : string :=
  match s with
  | String c s' => if isWhiteSpace c then trimStart s' else s
  | EmptyString => EmptyString
  end.

(** [parseInt(s, 10)]: leading white space is skipped, then an optional
    sign, then the longest run of decimal digits is read; [None] is [NaN].
    The value is kept as an exact integer: [executeHistory] only tests
    [n > 0] and subtracts [n] from a length, which a rounded value of the
    same sign decides the same way. *)

Fixpoint digits (s : string) (acc : option Z) : option Z :=
  match s with
  | String c s' =>
      match Ascii.is_nat c with
      | Some d => digits s' (Some (10 * default 0 acc + Z.of_nat d)%Z)
      | None => acc
      end
  | EmptyString => acc
  end.

Definition parseInt (s : string) : option Z :=
  match trimStart s with
  | String "-"%char s' => Z.opp <$> digits s' None
  | String "+"%char s' => digits s' None
  | s' => digits s' None
  end.

(** One line of the listing of [history]: four spaces, the 1-based entry
    number, two spaces, the entry. *)
Definition entry_line (i : nat) (entry : string) : string :=
  "    " +:+ show_nat (i + 1) +:+ "  " +:+ entry +:+ newline.

(** [for (let i = startIndex; i < history.length; i++) output += ...],
    with [count] turns left. *)
Fixpoint history_output (hist : list string) (i count : nat)
    (output : string) : string :=
  match count with
  | 0 => output
  | S count' =>
      history_output hist (S i) count'
        (output +:+ entry_line i (default "undefined" (hist !! i)))
  end.



Section Builtins.

(** Node's [path.join(a, b)], the absolute path [process.chdir(target)]
    arrives at from the working directory, and [findCommandInPath] of
    utils/pathUtils.js, whose result the callers only test and print. *)
Variable pathJoin : string → string → string.
Variable pathResolve : string → string → string.
Variable findCommandInPath : string → option string.

(** [process.chdir(targetDir)]; [None] where it throws. *)
Definition chdir (targetDir : string) (sh : Shell) : option Shell :=
  let dir := pathResolve (cwd sh) targetDir in
  if decide (dir ∈ directories (fs sh)) then Some (with_cwd dir sh)
  else None.

Definition executeEcho (args : list string) (outputStream : option nat)
    (sh : Shell) : Shell :=
  let output := join " " args +:+ newline in
  writeOutput output outputStream sh.

Definition executePwd (args : list string) (outputStream : option nat)
    (sh : Shell) : Shell :=
  let output := cwd sh +:+ newline in
  writeOutput output outputStream sh.

(** The tilde expansion of [executeCd]: [None] when it returns early
    with [cd: HOME not set], the new [targetDir] otherwise. *)
Definition expandTilde (targetDir : option string) (sh : Shell)
    : option (option string) :=
  match targetDir with
  | Some t =>
      if truthy targetDir && startsWith "~" t then
        let home := HOME sh in
        if negb (truthy home) then None
        else if decide (t = "~") then Some home
        else if startsWith "~/" t then
          Some (Some (pathJoin (default EmptyString home) (slice 2 t)))
        else Some targetDir
      else Some targetDir
  | None => Some targetDir
  end.

Definition executeCd (args : list string) (outputStream : option nat)
    (sh : Shell) : Shell :=
  let targetDir := if decide (0 < length args) then args !! 0 else HOME sh in
  match expandTilde targetDir sh with
  | None => writeOutput ("cd: HOME not set" +:+ newline) outputStream sh
  | Some targetDir =>
      if negb (truthy targetDir) then
        writeOutput ("cd: HOME not set" +:+ newline) outputStream sh
      else
        let target := default EmptyString targetDir in
        let sh' :=
          match chdir target sh with
          | Some sh' => sh'
          | None =>
              writeOutput
                ("cd: " +:+ target +:+ ": No such file or directory" +:+ newline)
                outputStream sh
          end in
        end_if_stream outputStream sh'
  end.

Definition executeType (args : list string) (outputStream : option nat)
    (sh : Shell) : Shell :=
  match args with
  | [] => writeOutput ("type: missing argument" +:+ newline) outputStream sh
  | commandToCheck :: _ =>
      let output :=
        if decide (commandToCheck ∈ BUILTINS) then
          commandToCheck +:+ " is a shell builtin" +:+ newline
        else
          match findCommandInPath commandToCheck with
          | Some fullPath =>
              commandToCheck +:+ " is " +:+ fullPath +:+ newline
          | None => commandToCheck +:+ ": not found" +:+ newline
          end in
      writeOutput output outputStream sh
  end.

(** The three file modes of [executeHistory] share their shape: the
    missing-argument message, the manager call, the failure message. *)
Definition history_file_mode (flag : string) (args : list string)
    (operation : string → HistoryManager → FileSystem →
                 bool * HistoryManager * FileSystem)
    (failure : string) (outputStream : option nat) (sh : Shell) : Shell :=
  if decide (length args < 2) then
    writeOutput ("history: " +:+ flag +:+ ": option requires an argument"
                 +:+ newline) outputStream sh
  else
    let file := default "undefined" (args !! 1) in
    let result := operation file (manager sh) (fs sh) in
    let sh' := with_history (result.1.2, result.2) sh in
    if negb result.1.1 then
      writeOutput ("history: " +:+ file +:+ failure +:+ newline)
        outputStream sh'
    else end_if_stream outputStream sh'.

Definition executeHistory (args : list string) (outputStream : option nat)
    (sh : Shell) : Shell :=
  let flag := args !! 0 in
  if decide (flag = Some "-r") then
    history_file_mode "-r" args readFromFile ": No such file or directory"
      outputStream sh
  else if decide (flag = Some "-w") then
    history_file_mode "-w" args writeToFile ": cannot write to file"
      outputStream sh
  else if decide (flag = Some "-a") then
    history_file_mode "-a" args appendToFile ": cannot write to file"
      outputStream sh
  else
    let hist := getHistory (manager sh) in
    let numToShow : Z :=
      match flag with
      | Some flag =>
          match parseInt flag with
          | Some n => if decide (0 < n)%Z then n else Z.of_nat (length hist)
          | None => Z.of_nat (length hist)
          end
      | None => Z.of_nat (length hist)
      end in
    let startIndex := Z.to_nat (Z.max 0 (Z.of_nat (length hist) - numToShow)) in
    let output :=
      history_output hist startIndex (length hist - startIndex) EmptyString in
    writeOutput output outputStream sh.

Definition executeBuiltin (command : string) (args : list string)
    (inputStream : option StreamRef) (outputStream : option nat)
    (sh : Shell) : Shell :=
  let sh :=
    match inputStream with
    | Some ref => consume ref Discarded sh
    | None => sh
    end in
  if decide (command = "echo") then executeEcho args outputStream sh
  else if decide (command = "pwd") then executePwd args outputStream sh
  else if decide (command = "cd") then executeCd args outputStream sh
  else if decide (command = "type") then executeType args outputStream sh
  else if decide (command = "history") then executeHistory args outputStream sh
  else sh.

End Builtins.


(** A shell at start-up, [HOME] unset, in the root directory of an empty
    file system. *)
Definition shell0 : Shell :=
  mkShell console0 "/" None fs0 createHistoryManager [] [] [] 0.

(** The same shell after three lines were entered. *)
Definition shell_after_three : Shell :=
  with_history (mkHistoryManager ["ls"; "pwd"; "history -5"] 0, fs0) shell0.

(** ** executor.js *)

Section Executor.

Variable pathJoin : string → string → string.
Variable pathResolve : string → string → string.
Variable findCommandInPath : string → option string.

(** [spawn(fullPath, args, {stdio, argv0})]: the new child gets the next
    process number. *)
Definition spawn (fullPath : string) (args : list string)
    (stdioConfig : Stdio * Stdio * Stdio) (argv0 : string) (sh : Shell)
    : Shell * nat :=
  (with_children
     (λ cs, cs ++ [mkChild fullPath args argv0 stdioConfig Unread Unread]) sh,
   length (children sh)).

(** *** executeSingleCommand *)

(** What the handlers of [executeSingleCommand] close over. *)
Record SingleRun := mkSingleRun {
  writeStream : option nat;
  processClosed : bool;
  streamFinished : bool
}.

(** [None] is the early return for a command that is not found; no
    handler is attached then. *)
Definition executeSingleCommand (command : string) (args : list string)
    (redirectionInfo : RedirectionInfo) (sh : Shell)
    : Shell * option SingleRun :=
  match findCommandInPath command with
  | None =>
      (onComplete
         (with_console (console_log (command +:+ ": command not found")) sh),
       None)
  | Some fullPath =>
      let redirectFd := redirectFd redirectionInfo in
      let isAppend := isAppend redirectionInfo in
      let redirected :=
        hasRedirection redirectionInfo &&
        truthy (redirectFile redirectionInfo) in
      let file := default EmptyString (redirectFile redirectionInfo) in
      (* fs.writeFileSync(redirectFile, "") inside try/catch *)
      let sh :=
        if redirected && bool_decide (redirectFd = 2) && negb isAppend then
          match writeFileSync file EmptyString (fs sh) with
          | Some fs' => with_fs fs' sh
          | None => sh
          end
        else sh in
      let writeStream :=
        if redirected then Some (length (writeStreams sh)) else None in
      let sh :=
        if redirected then
          with_writeStreams (λ ws, ws ++ [mkWriteStream file isAppend false]) sh
        else sh in
      let stdioConfig :=
        if redirected && bool_decide (redirectFd = 1) then
          (inherit, pipe, inherit)
        else if redirected && bool_decide (redirectFd = 2) then
          (inherit, inherit, pipe)
        else (inherit, inherit, inherit) in
      let '(sh, pid) := spawn fullPath args stdioConfig command sh in
      let sh :=
        match writeStream with
        | Some ws =>
            if bool_decide (redirectFd = 1) then
              with_children
                (alter (λ ch, mkChild (childPath ch) (childArgs ch) (childArgv0 ch)
                                (childStdio ch) (PipedToFile ws) (stderrConsumer ch))
                   pid) sh
            else if bool_decide (redirectFd = 2) then
              with_children
                (alter (λ ch, mkChild (childPath ch) (childArgs ch) (childArgv0 ch)
                                (childStdio ch) (stdoutConsumer ch) (PipedToFile ws))
                   pid) sh
            else sh
        | None => sh
        end in
      (sh, Some (mkSingleRun writeStream false
                   (if writeStream is Some _ then false else true)))
  end.

(** The events the handlers of [executeSingleCommand] wait for. *)
Inductive SingleEvent :=
  | StreamFinish                       (* writeStream 'finish' *)
  | StreamError                        (* writeStream 'error' *)
  | ChildClose                         (* childProcess 'close' *)
  | ChildError (message : string).     (* childProcess 'error' *)

Definition maybeComplete (run : SingleRun) (sh : Shell) : Shell :=
  if processClosed run && streamFinished run then onComplete sh else sh.

(** One event reaches its handler, if [executeSingleCommand] attached
    one. *)
Definition single_event (e : SingleEvent) (st : Shell * option SingleRun)
    : Shell * option SingleRun :=
  match st with
  | (sh, None) => (sh, None)
  | (sh, Some run) =>
      match e with
      | StreamFinish | StreamError =>
          match writeStream run with
          | Some _ =>
              let run := mkSingleRun (writeStream run) (processClosed run) true in
              (maybeComplete run sh, Some run)
          | None => (sh, Some run)
          end
      | ChildClose =>
          let run := mkSingleRun (writeStream run) true (streamFinished run) in
          (maybeComplete run sh, Some run)
      | ChildError message =>
          let sh :=
            match writeStream run with
            | Some ws =>
                with_writeStreams
                  (alter (λ w, mkWriteStream (wsPath w) (wsAppend w) true) ws) sh
            | None => sh
            end in
          let sh := with_console (console_error ("Error: " +:+ message)) sh in
          (onComplete sh, Some run)
      end
  end.

(** *** executePipeline *)

(** [{ isBuiltin: true, promise }] or [{ isBuiltin: false, process }].
    The promise of an internal command is [Promise.resolve()]: it is
    resolved when the entry is made. *)
Inductive PipelineEntry :=
  | BuiltinEntry
  | ExternalEntry (pid : nat).

(** The [for] loop of [executePipeline] from stage [i] on, [total] being
    [commands.length].  [None] is the early return taken when the
    command of an external stage is not found. *)
Fixpoint executePipeline_loop (total : nat) (commands : list (list string))
    (i : nat) (processes : list PipelineEntry) (streams : list StreamRef)
    (sh : Shell) : Shell * option (list PipelineEntry) :=
  match commands with
  | [] => (sh, Some processes)
  | commandTokens :: commands' =>
      let command := default EmptyString (commandTokens !! 0) in
      let args := drop 1 commandTokens in
      let isFirstCommand := bool_decide (i = 0) in
      let isLastCommand := bool_decide (i = total - 1) in
      if isBuiltin command then
        let inputStream := if decide (0 < i) then streams !! (i - 1) else None in
        let outputStream :=
          if isLastCommand then None else Some (length (passThroughs sh)) in
        let streams :=
          match outputStream with
          | Some id => streams ++ [PassThroughRef id]
          | None => streams
          end in
        let sh :=
          match outputStream with
          | Some _ =>
              with_passThroughs
                (λ ps, ps ++ [mkStream EmptyString false Unread]) sh
          | None => sh
          end in
        let sh :=
          executeBuiltin pathJoin pathResolve findCommandInPath
            command args inputStream outputStream sh in
        executePipeline_loop total commands' (S i)
          (processes ++ [BuiltinEntry]) streams sh
      else
        match findCommandInPath command with
        | None =>
            (onComplete
               (with_console
                  (console_log (command +:+ ": command not found")) sh),
             None)
        | Some fullPath =>
            let stdioConfig :=
              if isFirstCommand then (inherit, pipe, inherit)
              else if isLastCommand then (pipe, inherit, inherit)
              else (pipe, pipe, inherit) in
            let '(sh, pid) := spawn fullPath args stdioConfig command sh in
            let sh :=
              if bool_decide (0 < i) && bool_decide (stdioConfig.1.1 = pipe) then
                match processes !! (i - 1) with
                | Some BuiltinEntry =>
                    match streams !! (i - 1) with
                    | Some ref => consume ref (PipedToStdin pid) sh
                    | None => sh
                    end
                | Some (ExternalEntry prev) =>
                    match children sh !! prev with
                    | Some ch =>
                        if bool_decide ((childStdio ch).1.2 = pipe) then
                          consume (ChildStdout prev) (PipedToStdin pid) sh
                        else sh
                    | None => sh
                    end
                | None => sh
                end
              else sh in
            let streams :=
              if negb isLastCommand && bool_decide (stdioConfig.1.2 = pipe)
              then streams ++ [ChildStdout pid] else streams in
            executePipeline_loop total commands' (S i)
              (processes ++ [ExternalEntry pid]) streams sh
        end
  end.

(** What the completion handlers of [executePipeline] close over. *)
Record PipelineRun := mkPipelineRun {
  processes : list PipelineEntry;
  completedCount : nat
}.

(** [None]: [executePipeline] returned without attaching a handler. *)
Definition executePipeline (commands : list (list string)) (sh : Shell)
    : Shell * option PipelineRun :=
  if decide (length commands = 0) then (onComplete sh, None)
  else
    match executePipeline_loop (length commands) commands 0 [] [] sh with
    | (sh, None) => (sh, None)
    | (sh, Some processes) => (sh, Some (mkPipelineRun processes 0))
    end.

(** The terminal signals of the stages. *)
Inductive PipelineEvent :=
  | Settled (stage : nat)                   (* the promise's [then] runs *)
  | Close (stage : nat)                     (* child 'close' *)
  | Error (stage : nat) (message : string). (* child 'error' *)

Definition stage_of (e : PipelineEvent) : nat :=
  match e with
  | Settled stage | Close stage | Error stage _ => stage
  end.

Definition checkCompletion (st : Shell * PipelineRun) : Shell * PipelineRun :=
  let '(sh, run) := st in
  let run := mkPipelineRun (processes run) (S (completedCount run)) in
  if decide (completedCount run = length (processes run))
  then (onComplete sh, run) else (sh, run).

(** One event reaches the handler attached to its stage, if there is
    one. *)
Definition pipeline_event (e : PipelineEvent)
    (st : Shell * option PipelineRun) : Shell * option PipelineRun :=
  match st with
  | (sh, None) => (sh, None)
  | (sh, Some run) =>
      match e, processes run !! stage_of e with
      | Settled _, Some BuiltinEntry =>
          let '(sh, run) := checkCompletion (sh, run) in (sh, Some run)
      | Close _, Some (ExternalEntry _) =>
          let '(sh, run) := checkCompletion (sh, run) in (sh, Some run)
      | Error _ message, Some (ExternalEntry _) =>
          let sh := with_console (console_error ("Error: " +:+ message)) sh in
          let '(sh, run) := checkCompletion (sh, run) in (sh, Some run)
      | _, _ => (sh, Some run)
      end
  end.

(** The events [es], delivered in order. *)
Definition pipeline_events (es : list PipelineEvent)
    (st : Shell * option PipelineRun) : Shell * option PipelineRun :=
  foldl (λ st e, pipeline_event e st) st es.

End Executor.


(** A search path on which only [ls] is found. *)
Definition find_ls (command : string) : option string :=
  if decide (command = "ls") then Some "/bin/ls" else None.

(** Simple stand-ins for [path.join] and for the resolution of a
    directory against the working directory. *)
Definition join_slash (a b : string) : string := a +:+ "/" +:+ b.

Definition resolve_absolute (cwd target : string) : string := target.

(** An event whose stage has a handler of its kind attached. *)
Definition handled (run : PipelineRun) (e : PipelineEvent) : Prop :=
  match e, processes run !! stage_of e with
  | Settled _, Some BuiltinEntry => True
  | Close _, Some (ExternalEntry _) => True
  | Error _ _, Some (ExternalEntry _) => True
  | _, _ => False
  end.

(** ** index.js: the pipeline branch of the line handler

    [if (tokens.includes("|"))]: split the tokens, reprompt on an empty
    plan, run the pipeline otherwise.  The completion callback given to
    [executePipeline] is [() => rl.prompt()], which is also what the
    empty plan leads to. *)
Definition dispatchPipeline (pathJoin pathResolve : string → string → string)
    (findCommandInPath : string → option string)
    (tokens : list string) (sh : Shell) : Shell * option PipelineRun :=
  let '(c, commands) := parsePipeline tokens (console sh) in
  let sh := with_console (λ _, c) sh in
  if decide (length commands = 0) then (onComplete sh, None)
  else executePipeline pathJoin pathResolve findCommandInPath commands sh.

(** ** Further vocabulary for the properties of Part II *)

(** A character the tokenizer treats as payload wherever it stands. *)
Definition plain_char (c : ascii) : Prop :=
  c ≠ SPACE ∧ c ≠ TAB ∧ c ≠ SQUOTE ∧ c ≠ DQUOTE ∧ c ≠ BACKSLASH.

(** A non-empty word of such characters. *)
Definition plain_word (w : string) : Prop :=
  w ≠ EmptyString ∧ Forall plain_char (chars w).

(** The stages of a plan written back as one token list, a [|] between
    neighbours. *)
Fixpoint unsplit (plan : list (list string)) : list string :=
  match plan with
  | [] => []
  | [stage] => stage
  | stage :: plan' => stage ++ "|" :: unsplit plan'
  end.

(** A stage the splitter can give back: not empty, no [|] in it. *)
Definition proper_stage (stage : list string) : Prop :=
  stage ≠ [] ∧ "|" ∉ stage.


(** The tokens the loop has taken in, read off its two variables. *)
Definition pending (commands : list (list string)) (cur : list string)
    : list string :=
  concat ((λ stage, stage ++ ["|"]) <$> commands) ++ cur.

(** The text of a history file: every entry followed by a line feed. *)
Definition lines_text (entries : list string) : string :=
  foldr (λ e acc, e +:+ String LF acc) EmptyString entries.

(** The operations of the history manager, to speak of sequences of
    calls. *)
Inductive HistoryOp :=
  | AddCommand (command : string)
  | ReadFromFile (filePath : string)
  | WriteToFile (filePath : string)
  | AppendToFile (filePath : string).

Definition history_op (op : HistoryOp) (st : HistoryManager * FileSystem)
    : HistoryManager * FileSystem :=
  match op with
  | AddCommand command => (addCommand command st.1, st.2)
  | ReadFromFile filePath =>
      let r := readFromFile filePath st.1 st.2 in (r.1.2, r.2)
  | WriteToFile filePath =>
      let r := writeToFile filePath st.1 st.2 in (r.1.2, r.2)
  | AppendToFile filePath =>
      let r := appendToFile filePath st.1 st.2 in (r.1.2, r.2)
  end.

Definition history_ops (ops : list HistoryOp)
    (st : HistoryManager * FileSystem) : HistoryManager * FileSystem :=
  foldl (λ st op, history_op op st) st ops.

(** The [PassThrough] numbered [id] exists and [end()] was called on it. *)
Definition stream_ended (id : nat) (sh : Shell) : Prop :=
  ∃ st, passThroughs sh !! id = Some st ∧ ended st = true.

(** The internal commands [executeBuiltin] has a case for. *)
Definition handled_builtins : list string :=
  ["echo"; "pwd"; "cd"; "type"; "history"].


(** A shell whose [HOME] is [/home/u], with a [docs] directory in it. *)
Definition shell_home : Shell :=
  mkShell console0 "/" (Some "/home/u")
    (mkFS ∅ ∅ {[ "/home/u"; "/home/u/docs" ]})
    createHistoryManager [] [] [] 0.

(** The events [es] of a single command, delivered in order. *)
Definition single_events (es : list SingleEvent)
    (st : Shell * option SingleRun) : Shell * option SingleRun :=
  foldl (λ st e, single_event e st) st es.

(** Whether the clause makes [executeSingleCommand] open a write stream:
    [hasRedirection && redirectFile]. *)
Definition redirects (info : RedirectionInfo) : bool :=
  hasRedirection info && truthy (redirectFile info).

(** ** utils/pathUtils.js *)

(** What [fs.statSync(path)] tells [findCommandInPath]. *)
Record Stats := mkStats {
  isFile : bool;
  mode : Z
}.

(** [stats.isFile() && stats.mode & 0o111]; [None] stands for a path that
    does not exist ([fs.existsSync] is false) or on which [fs.statSync]
    throws, both of which the loop skips. *)
Definition executable (stats : option Stats) : bool :=
  match stats with
  | Some stats => isFile stats && bool_decide (Z.land (mode stats) 73 ≠ 0%Z)
  | None => false
  end.

(** The [for (const dir of pathDirs)] loop. *)
Fixpoint findCommandInPath_dirs (pathJoin : string → string → string)
    (statSync : string → option Stats) (pathDirs : list string)
    (commandName : string) : option string :=
  match pathDirs with
  | [] => None
  | dir :: pathDirs' =>
      let fullPath := pathJoin dir commandName in
      if executable (statSync fullPath) then Some fullPath
      else findCommandInPath_dirs pathJoin statSync pathDirs' commandName
  end.

(** [process.env.PATH || ""], split on [:], the empty segments dropped. *)
Definition pathDirs (PATH : option string) : list string :=
  let path := if truthy PATH then default EmptyString PATH else EmptyString in
  filter nonempty (split ":"%char path).

Definition findCommandInPath (pathJoin : string → string → string)
    (statSync : string → option Stats) (PATH : option string)
    (commandName : string) : option string :=
  findCommandInPath_dirs pathJoin statSync (pathDirs PATH) commandName.

(** ** utils/stringUtils.js *)

(** [prefix.substring(0, prefix.length - 1)] *)
Definition dropLast (prefix : string) : string :=
  String.substring 0 (String.length prefix - 1) prefix.

(** [while (s.indexOf(prefix) !== 0) { prefix = ...; if (prefix === "")
    return ""; }], where [indexOf] is 0 exactly when [s] starts with
    [prefix].  [None] is the [return ""] out of the whole function.  Every
    turn shortens [prefix], so [prefix.length] turns are enough. *)
Fixpoint shrinkPrefix (fuel : nat) (s prefix : string) : option string :=
  match fuel with
  | 0 => Some prefix
  | S fuel' =>
      if negb (startsWith prefix s) then
        let prefix := dropLast prefix in
        if decide (prefix = EmptyString) then None
        else shrinkPrefix fuel' s prefix
      else Some prefix
  end.

(** [for (let i = 1; i < string.length; i++)] *)
Fixpoint commonPrefix_loop (others : list string) (prefix : string) : string :=
  match others with
  | [] => prefix
  | s :: others' =>
      match shrinkPrefix (String.length prefix) s prefix with
      | None => EmptyString
      | Some prefix => commonPrefix_loop others' prefix
      end
  end.

Definition findLongestCommonPrefix (strings : list string) : string :=
  match strings with
  | [] => EmptyString
  | [only] => only
  | first :: others => commonPrefix_loop others first
  end.


(** The greatest common prefix [r] of [p] and [s], on characters. *)
Definition meets (r p s : list ascii) : Prop :=
  r `prefix_of` p ∧ r `prefix_of` s
  ∧ ∀ q, q `prefix_of` p → q `prefix_of` s → q `prefix_of` r.

(** [r] is a prefix of every string of [strings], and every string that
    is one is a prefix of [r]. *)
Definition longest_common_prefix (r : string) (strings : list string) : Prop :=
  Forall (λ s, startsWith r s = true) strings
  ∧ ∀ q, Forall (λ s, startsWith q s = true) strings → startsWith q r = true.

(** ** index.js: the line handler *)

(** [line.trim()]: [trimStart] and [trimEnd] on the same white space. *)
Fixpoint trimEnd (s : string) : string :=
  match s with
  | EmptyString => EmptyString
  | String c s' =>
      match trimEnd s' with
      | EmptyString => if isWhiteSpace c then EmptyString else String c EmptyString
      | String c' t => String c (String c' t)
      end
  end.

Definition trim (s : string) : string := trimEnd (trimStart s).

(** How the handler of one line leaves: with a new prompt, by ending the
    process, after an internal command ran (its promise is resolved, the
    prompt follows), or with a pipeline or a single external command
    started, whose handlers will prompt later. *)
Inductive LineResult :=
  | Reprompted
  | Exited
  | BuiltinRan
  | PipelineStarted (run : option PipelineRun)
  | CommandStarted (run : option SingleRun).

(** [historyManager.appendToFile(HISTFILE)], its result ignored. *)
Definition saveHistory (HISTFILE : string) (sh : Shell) : Shell :=
  let r := appendToFile HISTFILE (manager sh) (fs sh) in
  with_history (r.1.2, r.2) sh.

(** [handleExit]: it appends the history, then [rl.close()] runs the
    [close] listener, which appends once more and ends the process. *)
Definition handleExit (HISTFILE : string) (sh : Shell) : Shell :=
  saveHistory HISTFILE (saveHistory HISTFILE sh).

(** [rl.on("line", ...)].  [rl.prompt()] is counted by [onComplete]; the
    tab-completion state the handler resets is left out. *)
Definition onLine (pathJoin pathResolve : string → string → string)
    (findCommandInPath : string → option string) (HISTFILE : string)
    (line : string) (sh : Shell) : Shell * LineResult :=
  let trimmed := trim line in
  if decide (String.length trimmed = 0) then (onComplete sh, Reprompted)
  else
    let sh := with_history (addCommand trimmed (manager sh), fs sh) sh in
    if decide (trimmed = "exit") then (handleExit HISTFILE sh, Exited)
    else
      let tokens := CommandParser.parseCommandLine trimmed in
      if decide (length tokens = 0) then (onComplete sh, Reprompted)
      else if decide ("|" ∈ tokens) then
        let r := dispatchPipeline pathJoin pathResolve findCommandInPath
                   tokens sh in
        (r.1, PipelineStarted r.2)
      else
        let info := parseRedirection tokens in
        match commandTokens info with
        | [] => (onComplete sh, Reprompted)
        | command :: args =>
            if isBuiltin command then
              (onComplete
                 (executeBuiltin pathJoin pathResolve findCommandInPath
                    command args None None sh),
               BuiltinRan)
            else
              let r := executeSingleCommand findCommandInPath
                         command args info sh in
              (r.1, CommandStarted r.2)
        end.



(** A word of a typed pipeline: non-empty, free of white space, quotes
    and backslashes. *)
Definition typed_word (w : string) : Prop :=
  plain_word w ∧ Forall (λ c, isWhiteSpace c = false) (chars w).


(** ** [processEchoOutput]: the text of [echo] read off the raw line *)

(** [s.indexOf(needle)], [None] for [-1]. *)
Fixpoint indexOf (needle s : string) : option nat :=
  if startsWith needle s then Some 0
  else match s with
       | EmptyString => None
       | String _ tl => S <$> indexOf needle tl
       end.

Module Echo.

(** The local variables of [processEchoOutput].  The pair of [remaining]
    and the index [i] is kept as [rest], [remaining] from index [i] on. *)
Record state := mkState {
  rest : string;
  output : string;
  inSingleQuotes : bool;
  inDoubleQuotes : bool;
  inWhitespace : bool
}.

(** One turn of the [while (i < remaining.length)] loop. *)
Definition step (st : state) : state :=
  let out := output st in
  let inS := inSingleQuotes st in
  let inD := inDoubleQuotes st in
  let inW := inWhitespace st in
  match rest st with
  | EmptyString => st
  | String char tl =>
      (* backslash within double quotes *)
      if bool_decide (char = BACKSLASH) && inD && negb inS then
        match tl with
        | String nextChar tl' =>
            if bool_decide (nextChar = DQUOTE) then
              mkState tl' (out +:+ str DQUOTE) inS inD false
            else if bool_decide (nextChar = BACKSLASH) then
              mkState tl' (out +:+ str BACKSLASH) inS inD false
            else
              mkState tl' ((out +:+ str BACKSLASH) +:+ str nextChar)
                inS inD false
        | EmptyString => mkState tl (out +:+ str char) inS inD false
        end
      (* backslash outside quotes *)
      else if bool_decide (char = BACKSLASH) && negb inS && negb inD then
        match tl with
        | String nextChar tl' => mkState tl' (out +:+ str nextChar) inS inD false
        | EmptyString => mkState tl (out +:+ str char) inS inD false
        end
      (* single quotes *)
      else if bool_decide (char = SQUOTE) && negb inD then
        if inS then
          if next_is SQUOTE tl then mkState (advance tl) out inS inD inW
          else if next_is SQUOTE tl then mkState (advance tl) out true inD inW
          else mkState tl out false inD inW
        else
          if next_is SQUOTE tl then mkState (advance tl) out inS inD inW
          else mkState tl out true inD inW
      (* double quotes *)
      else if bool_decide (char = DQUOTE) && negb inS then
        if inD then
          if next_is DQUOTE tl then mkState (advance tl) out inS inD inW
          else if next_is DQUOTE tl then mkState (advance tl) out inS true inW
          else mkState tl out inS false inW
        else
          if next_is DQUOTE tl then mkState (advance tl) out inS inD inW
          else mkState tl out inS true inW
      (* ordinary characters *)
      else if inS || inD then
        mkState tl (out +:+ str char) inS inD false
      else if is_blank char then
        if negb inW then mkState tl (out +:+ " ") inS inD true
        else mkState tl out inS inD inW
      else
        mkState tl (out +:+ str char) inS inD false
  end.

(** The [while] loop, run for at most [fuel] turns. *)
Fixpoint loop (fuel : nat) (st : state) : state :=
  match fuel with
  | 0 => st
  | S fuel' =>
      match rest st with
      | EmptyString => st
      | String _ _ => loop fuel' (step st)
      end
  end.

(** Every turn consumes at least one character, so [remaining.length]
    turns are enough (lemma [echo_loop_consumes] below). *)
Definition processEchoOutput (input : string) : string :=
  match indexOf "echo" input with
  | None => EmptyString
  | Some echoPos =>
      let remaining := trim (slice (echoPos + 4) input) in
      if decide (String.length remaining = 0) then EmptyString
      else
        output (loop (String.length remaining)
                  (mkState remaining EmptyString false false false))
  end.

End Echo.

(** The words of a line without quotes and backslashes: [toks] are the
    words completed so far, [cur] the word being read. *)
Fixpoint words_from (s : string) (toks : list string) (cur : string)
    : list string :=
  match s with
  | EmptyString =>
      if bool_decide (0 < String.length cur) then toks ++ [cur] else toks
  | String c tl =>
      if is_blank c then
        if bool_decide (0 < String.length cur)
        then words_from tl (toks ++ [cur]) EmptyString
        else words_from tl toks cur
      else words_from tl toks (cur +:+ str c)
  end.

(** The same line with every run of blanks turned into one space; [inW]
    tells that the last character written stands for a run of blanks. *)
Fixpoint collapse (s : string) (out : string) (inW : bool) : string :=
  match s with
  | EmptyString => out
  | String c tl =>
      if is_blank c then collapse tl (if inW then out else out +:+ " ") true
      else collapse tl (out +:+ str c) false
  end.

(** A character that is a blank, or else neither white space nor a quote
    nor a backslash. *)
Definition unquoted_char (c : ascii) : Prop :=
  is_blank c = true ∨ (plain_char c ∧ isWhiteSpace c = false).


(** ** The listing of [history], as the specification words it *)





(** ** The events of a single command, counted *)

Global Instance SingleEvent_eq_dec : EqDecision SingleEvent.
Proof. solve_decision. Defined.

(** Among the events [es]: the child has closed; the write stream has
    finished or failed. *)
Definition closed (es : list SingleEvent) : bool :=
  bool_decide (ChildClose ∈ es).

Definition settled (es : list SingleEvent) : bool :=
  bool_decide (StreamFinish ∈ es ∨ StreamError ∈ es).

(** Whether the event [e], coming after the events [es], makes the
    callback run: an [error] of the child always does; a [close] does when
    there is no write stream or the stream has finished or failed before;
    a [finish] or [error] of the write stream does when the child has
    closed before. *)
Definition completes (redirected : bool) (es : list SingleEvent)
    (e : SingleEvent) : bool :=
  match e with
  | ChildError _ => true
  | ChildClose => negb redirected || settled es
  | StreamFinish | StreamError => redirected && closed es
  end.

(** Each of [close] and the end of the write stream is seen at most once,
    and the child reports no [error]. *)
Definition orderly (es : list SingleEvent) : Prop :=
  NoDup es ∧ (∀ message, ChildError message ∉ es)
  ∧ ¬ (StreamFinish ∈ es ∧ StreamError ∈ es).


(** ** index.js: a run of the shell, seen from the history file *)

(** Start-up: [historyManager.readFromFile(HISTFILE)] on the manager that
    [createHistoryManager()] has just made; the result is ignored. *)
Definition startup (HISTFILE : string) (sh : Shell) : Shell :=
  let r := readFromFile HISTFILE createHistoryManager (fs sh) in
  with_history (r.1.2, r.2) sh.

Section Session.

Variable pathJoin : string → string → string.
Variable pathResolve : string → string → string.
Variable findCommandInPath : string → option string.
Variable HISTFILE : string.

(** The lines of a run, handed to the [line] listener one after another;
    the run stops at the line that ends the process, and the flag tells
    whether there was one.  readline calls the listener for every line,
    whether or not the children of an earlier line still run.  The events
    of those children arrive in between; their handlers ([single_event],
    [pipeline_event]) print, prompt and destroy write streams, and are
    not interleaved here. *)
Fixpoint onLines (lines : list string) (sh : Shell) : Shell * bool :=
  match lines with
  | [] => (sh, false)
  | line :: lines' =>
      let r := onLine pathJoin pathResolve findCommandInPath HISTFILE line sh in
      match r.2 with
      | Exited => (r.1, true)
      | _ => onLines lines' r.1
      end
  end.

(** One run: start-up, the lines, and at the end of the input the [close]
    listener, unless [exit] has ended the process before. *)
Definition session (lines : list string) (sh : Shell) : Shell :=
  let r := onLines lines (startup HISTFILE sh) in
  if r.2 then r.1 else saveHistory HISTFILE r.1.

End Session.


(* ===================================================================== *)
(** * Part II: properties                                                 *)
(* ===================================================================== *)

(** ** The pipeline splitter *)

Lemma parsePipeline_loop_app l1 l2 commands cur :
  parsePipeline_loop (l1 ++ l2) commands cur =
  match parsePipeline_loop l1 commands cur with
  | None => None
  | Some (commands', cur') => parsePipeline_loop l2 commands' cur'
  end.
Proof.
  revert commands cur.
  induction l1 as [|t l1 IH]; intros commands cur; simpl; [done|].
  repeat case_decide; auto.
Qed.

Lemma parsePipeline_loop_no_pipe tokens commands cur :
  "|" ∉ tokens →
  parsePipeline_loop tokens commands cur = Some (commands, cur ++ tokens).
Proof.
  revert cur.
  induction tokens as [|t tokens IH]; intros cur Hnot; simpl.
  - by rewrite app_nil_r.
  - apply not_elem_of_cons in Hnot as [Hne Hnot].
    case_decide; [congruence|].
    rewrite IH by done. by rewrite <- app_assoc.
Qed.

(** C3, as the specification states it, fails on the empty token list: the
    final [if (currentCommand.length > 0)] pushes nothing, so the splitter
    returns no stage at all. *)
Lemma parsePipeline_empty_no_stage :
  ("|" ∉ ([] : list string)) ∧
  (parsePipeline [] console0).2 = [] ∧
  length (parsePipeline [] console0).2 ≠ 1.
Proof. split; [apply not_elem_of_nil|]. split; [reflexivity|]. simpl. lia. Qed.

(** C3 (amended): for every non-empty token list [T] in which no element is
    the literal [|], the pipeline splitter prints nothing and returns
    exactly one stage, equal to [T]. *)
Theorem parsePipeline_single_stage (T : list string) (c : Console) :
  T ≠ [] → "|" ∉ T → parsePipeline T c = (c, [T]).
Proof.
  intros Hne Hnot. unfold parsePipeline.
  rewrite parsePipeline_loop_no_pipe by done. simpl.
  destruct T as [|t T]; [done|]. reflexivity.
Qed.

Lemma parsePipeline_single_stage_witness :
  parsePipeline ["echo"; "hello"] console0 = (console0, [["echo"; "hello"]]).
Proof.
  apply (parsePipeline_single_stage ["echo"; "hello"] console0).
  - discriminate.
  - intros H. repeat (apply elem_of_cons in H as [H|H]; [discriminate H|]).
    by apply elem_of_nil in H.
Defined.




(** The dispatcher runs nothing on an empty plan: [commands.length === 0]
    only reprompts.  What the three boundary lines of the specification
    give. *)
Example parsePipeline_boundary_lines :
  (parsePipeline ["|"] console0).2 = [] ∧
  (parsePipeline ["|"; "cmd"] console0).2 = [] ∧
  (parsePipeline ["cmd"; "|"] console0).2 = [] ∧
  stdout (parsePipeline ["cmd"; "|"] console0).1 =
    "syntax error near unexpected token '|'" +:+ newline.
Proof. repeat split. Qed.

(** ** The redirection extractor *)

(** One turn of the scanning loop, read through the operator table. *)
Lemma parseRedirection_scan_step tokens i token rest :
  tokens !! i = Some token →
  parseRedirection_scan tokens i (token :: rest) =
  match operatorAt tokens i with
  | Some (fd, append, width) =>
      Some (mkFound i fd append (tokens !! (i + width)))
  | None => parseRedirection_scan tokens (S i) rest
  end.
Proof.
  intros Hi. unfold operatorAt. rewrite Hi. simpl.
  repeat (case_decide; [subst; reflexivity|]).
  destruct (tokens !! (i + 1)) as [next|] eqn:Hnext; simpl;
    repeat case_decide; destruct_and?; simplify_eq; try reflexivity;
    exfalso; naive_solver.
Qed.

Lemma parseRedirection_scan_first tokens k fd append width :
  operatorAt tokens k = Some (fd, append, width) →
  ∀ rest i, drop i tokens = rest → i ≤ k →
    (∀ j, i ≤ j < k → operatorAt tokens j = None) →
    parseRedirection_scan tokens i rest =
    Some (mkFound k fd append (tokens !! (k + width))).
Proof.
  intros Hk. induction rest as [|token rest IH]; intros i Hdrop Hik Hnone.
  - exfalso. apply drop_nil_inv in Hdrop.
    unfold operatorAt in Hk.
    rewrite (lookup_ge_None_2 tokens k) in Hk by lia. done.
  - assert (tokens !! i = Some token) as Hi.
    { rewrite <- (Nat.add_0_r i), <- lookup_drop, Hdrop. done. }
    rewrite parseRedirection_scan_step by done.
    destruct (decide (i = k)) as [->|Hne].
    + by rewrite Hk.
    + rewrite Hnone by lia. apply IH; [|lia|intros; apply Hnone; lia].
      replace (S i) with (i + 1) by lia.
      by rewrite <- drop_drop, Hdrop.
Qed.

Lemma operatorAt_width tokens i fd append width :
  operatorAt tokens i = Some (fd, append, width) → 1 ≤ width ≤ 2.
Proof.
  unfold operatorAt. intros H.
  repeat case_match; simplify_eq; lia.
Qed.

(** The table only reads positions [i] and [i + 1]. *)
Lemma operatorAt_take tokens tokens' n i :
  take n tokens' = take n tokens → i + 1 < n →
  operatorAt tokens' i = operatorAt tokens i.
Proof.
  intros Htake Hlt. unfold operatorAt.
  rewrite <- (lookup_take_lt tokens' n i), <- (lookup_take_lt tokens n i) by lia.
  rewrite <- (lookup_take_lt tokens' n (i + 1)) by lia.
  rewrite <- (lookup_take_lt tokens n (i + 1)) by lia.
  by rewrite Htake.
Qed.

Lemma parseRedirection_at tokens k fd append width :
  operatorAt tokens k = Some (fd, append, width) →
  (∀ j, j < k → operatorAt tokens j = None) →
  parseRedirection tokens =
    mkRedirectionInfo true (take k tokens) (tokens !! (k + width)) fd append.
Proof.
  intros Hk Hnone. unfold parseRedirection.
  rewrite (parseRedirection_scan_first tokens k fd append width Hk tokens 0);
    [done|done|lia|intros; apply Hnone; lia].
Qed.

(** C5: scanning left to right, the first position [k] that holds a
    recognized operator ends the command tokens.  The tokens before [k] are
    the command tokens; the target is the token [width] places after [k]
    (one for [>], [>>], [1>], [1>>], [2>], [2>>], two for the split-fd
    forms), and is null when that token is absent; the tokens after the
    target have no influence on the result. *)
Theorem parseRedirection_first_operator
    (tokens : list string) (k fd : nat) (append : bool) (width : nat) :
  operatorAt tokens k = Some (fd, append, width) →
  (∀ j, j < k → operatorAt tokens j = None) →
  parseRedirection tokens =
    mkRedirectionInfo true (take k tokens) (tokens !! (k + width)) fd append
  ∧ (length tokens ≤ k + width → redirectFile (parseRedirection tokens) = None)
  ∧ (∀ tokens', take (k + width + 1) tokens' = take (k + width + 1) tokens →
       parseRedirection tokens' = parseRedirection tokens).
Proof.
  intros Hk Hnone.
  pose proof (operatorAt_width _ _ _ _ _ Hk) as Hw.
  rewrite (parseRedirection_at tokens k fd append width) by done.
  split; [done|]. split.
  - intros Hlen. simpl. by apply lookup_ge_None_2.
  - intros tokens' Htake.
    rewrite (parseRedirection_at tokens' k fd append width).
    + f_equal.
      * assert (∀ l : list string,
                  take k l = take k (take (k + width + 1) l)) as Hcut.
        { intros l. rewrite take_take. f_equal. lia. }
        by rewrite (Hcut tokens'), Htake, <- Hcut.
      * rewrite <- (lookup_take_lt tokens' (k + width + 1)) by lia.
        rewrite Htake. apply lookup_take_lt. lia.
    + rewrite <- Hk. eapply operatorAt_take; [done|lia].
    + intros j Hj. rewrite <- (Hnone j Hj).
      eapply operatorAt_take; [done|lia].
Qed.

Lemma parseRedirection_first_operator_witness :
  parseRedirection ["ls"; "-l"; "2"; ">>"; "err.txt"; ">"; "out.txt"] =
    mkRedirectionInfo true ["ls"; "-l"] (Some "err.txt") 2 true
  ∧ (7 ≤ 2 + 2 → redirectFile (parseRedirection
       ["ls"; "-l"; "2"; ">>"; "err.txt"; ">"; "out.txt"]) = None)
  ∧ (∀ tokens', take 5 tokens' = ["ls"; "-l"; "2"; ">>"; "err.txt"] →
       parseRedirection tokens' =
       parseRedirection ["ls"; "-l"; "2"; ">>"; "err.txt"; ">"; "out.txt"]).
Proof.
  apply (parseRedirection_first_operator
           ["ls"; "-l"; "2"; ">>"; "err.txt"; ">"; "out.txt"] 2 2 true 2).
  - reflexivity.
  - intros j Hj. destruct j as [|[|j]]; [reflexivity|reflexivity|lia].
Defined.

(** An operator with nothing after it: the clause has a null target. *)
Example parseRedirection_missing_target :
  parseRedirection ["echo"; "hi"; ">"] =
    mkRedirectionInfo true ["echo"; "hi"] None 1 false.
Proof. reflexivity. Qed.

(** No operator at all: the tokens come back unchanged. *)
Example parseRedirection_none :
  parseRedirection ["echo"; "1"; "2"] =
    mkRedirectionInfo false ["echo"; "1"; "2"] None 1 false.
Proof. reflexivity. Qed.

(** ** The tokenizer *)

Lemma skipWhitespace_length s :
  String.length (skipWhitespace s) ≤ String.length s.
Proof.
  induction s as [|c s IH]; simpl; [done|].
  destruct (is_blank c); simpl; lia.
Qed.

Lemma next_is_length q tl :
  next_is q tl = true → String.length (advance tl) < String.length tl.
Proof. destruct tl; simpl; [done|lia]. Qed.

(** Every turn of the loop moves the index forward. *)
Lemma step_consumes st :
  CommandParser.rest st ≠ EmptyString →
  String.length (CommandParser.rest (CommandParser.step st)) <
  String.length (CommandParser.rest st).
Proof.
  destruct st as [r toks cur inS inD]. simpl. intros Hr.
  destruct r as [|char tl]; [done|]. clear Hr.
  unfold CommandParser.step. simpl.
  pose proof (skipWhitespace_length tl) as Hskip.
  pose proof (next_is_length SQUOTE tl) as HS.
  pose proof (next_is_length DQUOTE tl) as HD.
  repeat (case_match; simpl in *; subst; try lia; try (specialize (HS eq_refl));
          try (specialize (HD eq_refl)); try lia).
Qed.

Lemma loop_consumes fuel st :
  String.length (CommandParser.rest st) ≤ fuel →
  CommandParser.rest (CommandParser.loop fuel st) = EmptyString.
Proof.
  revert st. induction fuel as [|fuel IH]; intros st Hlen; simpl.
  - destruct (CommandParser.rest st); [done|simpl in Hlen; lia].
  - destruct (CommandParser.rest st) as [|c tl] eqn:Hr; [done|].
    apply IH. pose proof (step_consumes st) as Hstep.
    rewrite Hr in Hstep. simpl in *. specialize (Hstep ltac:(done)). lia.
Qed.

(** The loop of [parseCommandLine] always runs to the end of the input:
    the tokenizer is total. *)
Lemma loop_consumes_input input :
  CommandParser.rest
    (CommandParser.loop (String.length input) (CommandParser.init input))
  = EmptyString.
Proof. apply loop_consumes. done. Qed.

(** *** Erasing the provenance *)

Lemma string_of_list_ascii_app l1 l2 :
  String.string_of_list_ascii (l1 ++ l2) =
  String.string_of_list_ascii l1 +:+ String.string_of_list_ascii l2.
Proof. induction l1 as [|c l1 IH]; simpl; [done|]. by rewrite IH. Qed.

Lemma erase_app t1 t2 : erase (t1 ++ t2) = erase t1 +:+ erase t2.
Proof. unfold erase. by rewrite fmap_app, string_of_list_ascii_app. Qed.

Lemma erase_length t : String.length (erase t) = length t.
Proof.
  unfold erase. induction t as [|p t IH]; simpl; [done|]. by f_equal.
Qed.

Lemma step_erase st :
  Provenance.erase_state (Provenance.step st) =
  CommandParser.step (Provenance.erase_state st).
Proof.
  destruct st as [r toks cur inS inD].
  unfold Provenance.erase_state, Provenance.step, CommandParser.step. simpl.
  rewrite erase_length.
  destruct r as [|char tl]; [done|].
  repeat (case_match; simpl; try done;
          rewrite ?erase_app, ?fmap_app; simpl; try done).
Qed.

Lemma loop_erase fuel st :
  Provenance.erase_state (Provenance.loop fuel st) =
  CommandParser.loop fuel (Provenance.erase_state st).
Proof.
  revert st. induction fuel as [|fuel IH]; intros st; simpl; [done|].
  destruct (Provenance.rest st) eqn:Hr; [done|].
  by rewrite IH, step_erase.
Qed.

Lemma finish_erase st :
  erase <$> Provenance.finish st =
  CommandParser.finish (Provenance.erase_state st).
Proof.
  unfold Provenance.finish, CommandParser.finish. simpl.
  rewrite erase_length. case_bool_decide; [|done].
  by rewrite fmap_app.
Qed.

(** The tokens of the source are the tokens with provenance, forgotten. *)
Lemma parseCommandLine_erase input :
  erase <$> Provenance.parseCommandLine input =
  CommandParser.parseCommandLine input.
Proof.
  unfold Provenance.parseCommandLine, CommandParser.parseCommandLine.
  by rewrite finish_erase, loop_erase.
Qed.

(** *** Quotes and blanks are syntax outside quotes *)

Lemma is_blank_false c : is_blank c = false → c ≠ SPACE ∧ c ≠ TAB.
Proof.
  unfold is_blank. intros [H1 H2]%orb_false_iff.
  by apply bool_decide_eq_false in H1, H2.
Qed.

(** Closes the side conditions of one branch of [Provenance.step]. *)
Ltac allowed_branch :=
  repeat match goal with
  | H : bool_decide _ = false |- _ => apply bool_decide_eq_false in H
  | H : is_blank _ = false |- _ => apply is_blank_false in H as [??]
  end;
  split_and?; try done;
  try (apply Forall_app; split; [done|]);
  repeat constructor; unfold allowed; simpl; try done.

Lemma step_allowed st : allowed_state st → allowed_state (Provenance.step st).
Proof.
  destruct st as [r toks cur inS inD].
  unfold allowed_state, Provenance.step. simpl. intros (Htoks & Hcur & Hq).
  destruct r as [|char tl]; [done|].
  destruct inS, inD; try discriminate Hq; simpl;
    repeat (case_bool_decide; simpl); subst;
    repeat (case_match; simpl); simplify_eq; allowed_branch.
Qed.

Lemma loop_allowed fuel st :
  allowed_state st → allowed_state (Provenance.loop fuel st).
Proof.
  revert st. induction fuel as [|fuel IH]; intros st Hst; simpl; [done|].
  destruct (Provenance.rest st); [done|]. by apply IH, step_allowed.
Qed.

Lemma finish_allowed st :
  allowed_state st → Forall (Forall allowed) (Provenance.finish st).
Proof.
  intros (Htoks & Hcur & _). unfold Provenance.finish.
  case_bool_decide; [|done].
  apply Forall_app. split; [done|]. by apply Forall_cons.
Qed.

(** C2, as the specification states it, fails: a tab between quotes is
    kept in the token, and so is a double quote between single quotes,
    which no backslash escapes. *)
Lemma parseCommandLine_keeps_quoted_tab :
  (∃ token, CommandParser.parseCommandLine line_quoted_tab !! 0 = Some token
            ∧ has_char TAB token)
  ∧ (∃ token, CommandParser.parseCommandLine line_quoted_quote !! 0 = Some token
            ∧ has_char DQUOTE token ∧ ¬ has_char BACKSLASH line_quoted_quote).
Proof.
  split.
  - exists ("a" +:+ str TAB +:+ "b"). split; [reflexivity|].
    unfold has_char. vm_compute. apply list_elem_of_In. simpl. tauto.
  - exists ("it" +:+ str DQUOTE +:+ "s"). split; [reflexivity|]. split.
    + unfold has_char. vm_compute. apply list_elem_of_In. simpl. tauto.
    + unfold has_char. vm_compute. intros H%list_elem_of_In. simpl in H.
      intuition discriminate.
Qed.

(** C2 (amended): for every input line, the tokens of the tokenizer are
    the tokens with provenance with the provenance forgotten, and in every
    token each character that was read outside quotes and not after a
    backslash is neither a quote, a tab nor a space; each character read
    between single quotes is not a single quote; each character read
    between double quotes is not a double quote, unless a backslash
    stood before it.  So a quote, a tab or a space reaches a token only
    from inside quotes or from behind a backslash. *)
Theorem parseCommandLine_quotes_syntactic (L : string) :
  CommandParser.parseCommandLine L = erase <$> Provenance.parseCommandLine L
  ∧ Forall (Forall allowed) (Provenance.parseCommandLine L).
Proof.
  split; [by rewrite parseCommandLine_erase|].
  apply finish_allowed, loop_allowed.
  unfold allowed_state. simpl. split_and!; constructor.
Qed.

(** The examples of the source file and of the specification. *)
Example parseCommandLine_examples :
  CommandParser.parseCommandLine "echo hello world" = ["echo"; "hello"; "world"]
  ∧ CommandParser.parseCommandLine "echo 'hello world'" = ["echo"; "hello world"]
  ∧ CommandParser.parseCommandLine "echo hello | grep h" =
      ["echo"; "hello"; "|"; "grep"; "h"]
  ∧ CommandParser.parseCommandLine "a|b" = ["a|b"]
  ∧ CommandParser.parseCommandLine "'foo''bar'" = ["foobar"]
  ∧ CommandParser.parseCommandLine "echo hello   world" =
      ["echo"; "hello"; "world"]
  ∧ CommandParser.parseCommandLine "echo 'a\nb'" = ["echo"; "a\nb"].
Proof. repeat split. Qed.

(** ** The history manager *)

Lemma string_app_nil_r s : s +:+ EmptyString = s.
Proof. induction s as [|c s IH]; [done|]. unfold String.app in *. simpl. by rewrite IH. Qed.

Lemma string_app_assoc s1 s2 s3 : (s1 +:+ s2) +:+ s3 = s1 +:+ (s2 +:+ s3).
Proof.
  induction s1 as [|c s1 IH]; [done|].
  unfold String.app in *. simpl. by rewrite IH.
Qed.

Lemma has_char_cons c c' s : has_char c (String c' s) ↔ c = c' ∨ has_char c s.
Proof. unfold has_char, chars. simpl. apply elem_of_cons. Qed.

Lemma split_line sep e s :
  ¬ has_char sep e → split sep (e +:+ String sep s) = e :: split sep s.
Proof.
  induction e as [|c e IH]; intros Hno.
  - unfold String.app. simpl. by rewrite decide_True.
  - rewrite has_char_cons in Hno.
    unfold String.app in *. simpl.
    rewrite decide_False by (intros ->; tauto).
    rewrite IH by tauto. done.
Qed.

(** The text [writeToFile] writes: every entry followed by a line feed. *)
Lemma writeToFile_content hist :
  join newline hist +:+
    (if decide (0 < length hist) then newline else EmptyString) =
  foldr (λ e acc, e +:+ String LF acc) EmptyString hist.
Proof.
  induction hist as [|x hist IH]; [done|].
  destruct hist as [|y hist]; [done|].
  change (join newline (x :: y :: hist))
    with (x +:+ newline +:+ join newline (y :: hist)).
  rewrite decide_True by (simpl; lia).
  rewrite decide_True in IH by (simpl; lia).
  rewrite !string_app_assoc, IH. done.
Qed.

Lemma split_lines hist :
  Forall (λ e, ¬ has_char LF e) hist →
  split LF (foldr (λ e acc, e +:+ String LF acc) EmptyString hist) =
  hist ++ [EmptyString].
Proof.
  induction 1 as [|e hist He Hhist IH]; [done|].
  simpl. by rewrite split_line, IH.
Qed.

Lemma filter_nonempty_lines hist :
  Forall nonempty hist → filter nonempty (hist ++ [EmptyString]) = hist.
Proof.
  induction 1 as [|e hist He Hhist IH]; [done|].
  simpl. rewrite filter_cons_True by done. by rewrite IH.
Qed.

Lemma push_all_app lines hist : push_all lines hist = hist ++ lines.
Proof.
  unfold push_all. revert hist.
  induction lines as [|l lines IH]; intros hist; simpl.
  - by rewrite app_nil_r.
  - by rewrite IH, <- app_assoc.
Qed.

(** Reading back what [writeToFile] wrote. *)
Lemma read_back_lines hist :
  Forall storable hist →
  push_all
    (filter nonempty
       (split LF (join newline hist +:+
          (if decide (0 < length hist) then newline else EmptyString)))) []
  = hist.
Proof.
  intros Hst. rewrite push_all_app, writeToFile_content. simpl.
  rewrite split_lines, filter_nonempty_lines; [done|..].
  - eapply Forall_impl; [done|]. by intros e [??].
  - eapply Forall_impl; [done|]. by intros e [??].
Qed.

(** C6, as the specification states it, fails in two ways.  An entry that
    holds a line feed comes back as two entries; and when the write fails
    on a file that can still be read, the read replaces the history with
    the old lines of the file. *)
Lemma write_then_read_changes_history :
  history (write_then_read "hist"
             (mkHistoryManager ["echo a" +:+ newline +:+ "echo b"] 0) fs0).1
    = ["echo a"; "echo b"]
  ∧ history (write_then_read "hist"
             (mkHistoryManager ["echo a" +:+ newline +:+ "echo b"] 0) fs0).1
    ≠ ["echo a" +:+ newline +:+ "echo b"]
  ∧ history (write_then_read "/etc/motd" (mkHistoryManager ["ls"] 0) fs_motd).1
    = ["welcome"; "guest"]
  ∧ history (write_then_read "/etc/motd" (mkHistoryManager ["ls"] 0) fs_motd).1
    ≠ ["ls"].
Proof. split_and!; vm_compute; congruence. Qed.

(** C6 (amended): for every history whose entries are non-empty and hold
    no line feed, and every path [F] on which the write does not fail,
    [writeToFile(F)] and then [readFromFile(F)] both succeed and leave the
    in-memory history equal to the history before the write. *)
Theorem writeToFile_readFromFile_roundtrip
    (h : HistoryManager) (fs : FileSystem) (F : string) :
  Forall storable (history h) →
  F ∉ readonly fs →
  ∃ h1 fs1 h2,
    writeToFile F h fs = (true, h1, fs1) ∧
    readFromFile F h1 fs1 = (true, h2, fs1) ∧
    history h2 = history h ∧
    history (write_then_read F h fs).1 = history h.
Proof.
  intros Hst HF.
  assert (∃ h1 fs1 h2,
    writeToFile F h fs = (true, h1, fs1) ∧
    readFromFile F h1 fs1 = (true, h2, fs1) ∧
    history h2 = history h) as (h1 & fs1 & h2 & Hw & Hr & Heq).
  { unfold writeToFile, writeFileSync. rewrite decide_False by done.
    eexists _, _, _. split; [reflexivity|].
    unfold readFromFile, readFileSync. simpl.
    rewrite lookup_insert_eq. split; [reflexivity|].
    simpl. by apply read_back_lines. }
  exists h1, fs1, h2. split_and!; try done.
  unfold write_then_read. by rewrite Hw, Hr.
Qed.

Lemma writeToFile_readFromFile_roundtrip_witness :
  ∃ h1 fs1 h2,
    writeToFile "hist" (mkHistoryManager ["ls"; "pwd"] 0) fs0 = (true, h1, fs1) ∧
    readFromFile "hist" h1 fs1 = (true, h2, fs1) ∧
    history h2 = ["ls"; "pwd"] ∧
    history (write_then_read "hist" (mkHistoryManager ["ls"; "pwd"] 0) fs0).1
      = ["ls"; "pwd"].
Proof.
  apply (writeToFile_readFromFile_roundtrip
           (mkHistoryManager ["ls"; "pwd"] 0) fs0 "hist").
  - repeat constructor; unfold nonempty; simpl; try lia;
      unfold has_char; vm_compute; intros H%list_elem_of_In; simpl in H;
      intuition discriminate.
  - simpl. apply not_elem_of_empty.
Defined.

(** C7: for every history state, file system and path [F], the second of
    two [appendToFile(F)] calls in a row leaves [F], and the whole file
    system, as the first call left it: it appends zero bytes.  When the
    first call succeeded, the last-saved marker has reached the length of
    the history, and the second call returns success without writing. *)
Theorem appendToFile_twice_appends_nothing
    (h : HistoryManager) (fs : FileSystem) (F : string) :
  let '(r1, r2) := append_twice F h fs in
  file_bytes F r2.2 = file_bytes F r1.2
  ∧ r2.2 = r1.2
  ∧ r2.1.2 = r1.1.2
  ∧ (r1.1.1 = true →
       length (history r1.1.2) ≤ lastSavedIndex r1.1.2 ∧ r2.1.1 = true).
Proof.
  unfold append_twice, appendToFile, appendFileSync. simpl.
  destruct (decide (length (history h) ≤ lastSavedIndex h)) as [Hle|Hgt]; simpl.
  - rewrite decide_True by done. simpl. done.
  - destruct (decide (F ∈ readonly fs)) as [Hro|Hrw]; simpl.
    + rewrite decide_False by done. rewrite decide_True by done. simpl.
      split_and!; try done.
    + rewrite decide_True by done. simpl. done.
Qed.

(** ** The internal commands *)

(** C8: [cd] without argument while [HOME] is unset writes exactly
    [cd: HOME not set] and a line feed (to the output stream when the
    command has one, to standard output otherwise), never calls
    [process.chdir], and so leaves the working directory as it was. *)
Theorem executeCd_home_not_set
    (pathJoin pathResolve : string → string → string)
    (outputStream : option nat) (sh : Shell) :
  HOME sh = None →
  executeCd pathJoin pathResolve [] outputStream sh =
    writeOutput ("cd: HOME not set" +:+ newline) outputStream sh
  ∧ cwd (executeCd pathJoin pathResolve [] outputStream sh) = cwd sh
  ∧ (outputStream = None →
       console (executeCd pathJoin pathResolve [] outputStream sh) =
       mkConsole (stdout (console sh) +:+ "cd: HOME not set" +:+ newline)
                 (stderr (console sh))).
Proof.
  intros Hhome.
  assert (executeCd pathJoin pathResolve [] outputStream sh =
          writeOutput ("cd: HOME not set" +:+ newline) outputStream sh) as ->.
  { unfold executeCd, expandTilde. simpl. by rewrite Hhome. }
  split; [done|]. split.
  - by destruct outputStream.
  - by intros ->.
Qed.

Lemma executeCd_home_not_set_witness :
  executeCd (λ a b, a +:+ "/" +:+ b) (λ _ target, target) [] None shell0 =
    writeOutput ("cd: HOME not set" +:+ newline) None shell0
  ∧ cwd (executeCd (λ a b, a +:+ "/" +:+ b) (λ _ target, target) [] None shell0)
    = "/"
  ∧ (@None nat = None →
       console (executeCd (λ a b, a +:+ "/" +:+ b) (λ _ target, target) []
                  None shell0) =
       mkConsole (EmptyString +:+ "cd: HOME not set" +:+ newline) EmptyString).
Proof.
  apply (executeCd_home_not_set (λ a b, a +:+ "/" +:+ b) (λ _ target, target)
           None shell0).
  reflexivity.
Defined.







(** What [parseInt] reads, and the listings that follow from it. *)
Example parseInt_examples :
  parseInt "5" = Some 5%Z ∧ parseInt "0" = Some 0%Z ∧
  parseInt "-3" = Some (-3)%Z ∧ parseInt "abc" = None ∧
  parseInt "2nd" = Some 2%Z ∧ parseInt " 7" = Some 7%Z ∧
  parseInt "-" = None ∧ parseInt "+4" = Some 4%Z ∧
  parseInt (String "160" "2") = Some 2%Z ∧
  parseInt (String TAB (String LF "-0x")) = Some 0%Z.
Proof. repeat split. Qed.

Example executeHistory_listings :
  stdout (console (executeHistory ["abc"] None shell_after_three)) =
    "    1  ls" +:+ newline +:+ "    2  pwd" +:+ newline +:+
    "    3  history -5" +:+ newline
  ∧ stdout (console (executeHistory ["0"] None shell_after_three)) =
    stdout (console (executeHistory [] None shell_after_three))
  ∧ stdout (console (executeHistory ["2"] None shell_after_three)) =
    "    2  pwd" +:+ newline +:+ "    3  history -5" +:+ newline.
Proof. repeat split. Qed.

(** ** Where the output of a command goes *)

Section Diagnostics.

Variable pathJoin : string → string → string.
Variable pathResolve : string → string → string.
Variable findCommandInPath : string → option string.

Lemma writeOutput_stream_console output id sh :
  console (writeOutput output (Some id) sh) = console sh.
Proof. done. Qed.

Lemma writeOutput_stdout output sh :
  console (writeOutput output None sh) = stdout_write output (console sh).
Proof. done. Qed.

Lemma writeOutput_stderr output outputStream sh :
  stderr (console (writeOutput output outputStream sh)) = stderr (console sh).
Proof. by destruct outputStream. Qed.

Lemma writeOutput_calls output outputStream sh :
  onCompleteCalls (writeOutput output outputStream sh) = onCompleteCalls sh.
Proof. by destruct outputStream. Qed.

Lemma end_if_stream_console outputStream sh :
  console (end_if_stream outputStream sh) = console sh.
Proof. by destruct outputStream. Qed.

Lemma end_if_stream_calls outputStream sh :
  onCompleteCalls (end_if_stream outputStream sh) = onCompleteCalls sh.
Proof. by destruct outputStream. Qed.

Lemma consume_console ref c sh : console (consume ref c sh) = console sh.
Proof. by destruct ref. Qed.

Lemma consume_calls ref c sh :
  onCompleteCalls (consume ref c sh) = onCompleteCalls sh.
Proof. by destruct ref. Qed.

(** Closes goals about a field that the branch at hand only passes on. *)
Ltac passes_on :=
  repeat first
    [ progress simpl
    | rewrite writeOutput_stderr | rewrite writeOutput_calls
    | rewrite end_if_stream_console | rewrite end_if_stream_calls
    | rewrite consume_console | rewrite consume_calls
    | rewrite writeOutput_stream_console
    | case_decide | case_match ];
  try done.



(** No internal command calls the completion callback. *)
Lemma executeBuiltin_calls command args inputStream outputStream sh :
  onCompleteCalls (executeBuiltin pathJoin pathResolve findCommandInPath
                     command args inputStream outputStream sh)
  = onCompleteCalls sh.
Proof.
  unfold executeBuiltin, executeEcho, executePwd, executeCd, executeType,
    executeHistory, history_file_mode, chdir.
  passes_on; simplify_eq; passes_on.
Qed.

Lemma stdout_write_empty c : stdout_write EmptyString c = c.
Proof. destruct c. unfold stdout_write. simpl. by rewrite string_app_nil_r. Qed.

(** Without an output stream, whatever an internal command prints,
    diagnostics included, is appended to standard output. *)
Lemma executeBuiltin_stdout command args inputStream sh :
  ∃ output,
    console (executeBuiltin pathJoin pathResolve findCommandInPath
               command args inputStream None sh)
    = stdout_write output (console sh).
Proof.
  unfold executeBuiltin, executeEcho, executePwd, executeCd, executeType,
    executeHistory, history_file_mode, chdir.
  repeat first [ progress simpl | rewrite consume_console
               | case_decide | case_match ];
    simplify_eq; simpl; rewrite ?consume_console;
    first [ by eexists | by exists EmptyString; rewrite stdout_write_empty ].
Qed.









End Diagnostics.

(** ** The executor *)

Section ExecutorFacts.

Variable pathJoin : string → string → string.
Variable pathResolve : string → string → string.
Variable findCommandInPath : string → option string.

Abbreviation loop :=
  (executePipeline_loop pathJoin pathResolve findCommandInPath).



End ExecutorFacts.



(** The diagnostics of three internal commands inside a pipeline: each
    is written to the stream of the stage, and the terminal stays
    empty. *)
Example internal_diagnostics_into_stream :
  let sh := with_passThroughs (λ _, [mkStream EmptyString false Unread])
              shell0 in
  let run command args :=
    executeBuiltin join_slash resolve_absolute find_ls command args None
      (Some 0) sh in
  passThroughs (run "type" ["nosuch"]) !! 0
    = Some (mkStream ("nosuch: not found" +:+ newline) true Unread)
  ∧ passThroughs (run "cd" []) !! 0
    = Some (mkStream ("cd: HOME not set" +:+ newline) true Unread)
  ∧ passThroughs (run "history" ["-r"]) !! 0
    = Some (mkStream ("history: -r: option requires an argument" +:+ newline)
              true Unread)
  ∧ console (run "type" ["nosuch"]) = console0
  ∧ console (run "cd" []) = console0
  ∧ console (run "history" ["-r"]) = console0.
Proof. vm_compute. done. Qed.

(** *** Waiting for the stages *)

Lemma pipeline_events_cons e es st :
  pipeline_events (e :: es) st = pipeline_events es (pipeline_event e st).
Proof. done. Qed.

Lemma pipeline_events_detached es sh :
  pipeline_events es (sh, None) = (sh, None).
Proof. induction es as [|e es IH]; [done|]. simpl. apply IH. Qed.

Lemma handled_stage run e : handled run e → stage_of e < length (processes run).
Proof.
  unfold handled. intros H. apply lookup_lt_is_Some.
  destruct e; simpl in *;
    (destruct (processes run !! _) as [entry|]; [by exists entry|done]).
Qed.

(** A handled event counts once, and calls back when the count reaches
    the number of stages. *)
Lemma pipeline_event_counts e sh run :
  handled run e →
  ∃ sh' run',
    pipeline_event e (sh, Some run) = (sh', Some run') ∧
    processes run' = processes run ∧
    completedCount run' = S (completedCount run) ∧
    onCompleteCalls sh' =
      onCompleteCalls sh +
      (if decide (S (completedCount run) = length (processes run))
       then 1 else 0).
Proof.
  unfold handled, pipeline_event, checkCompletion.
  destruct e as [stage|stage|stage message]; simpl;
    destruct (processes run !! stage) as [[|pid]|]; try done; intros _;
    case_decide; eexists _, _; (split; [reflexivity|]); simpl;
    split_and!; try done; lia.
Qed.

Lemma pipeline_events_count es :
  ∀ sh run, Forall (handled run) es →
  ∃ sh' run',
    pipeline_events es (sh, Some run) = (sh', Some run') ∧
    processes run' = processes run ∧
    completedCount run' = completedCount run + length es ∧
    onCompleteCalls sh' =
      onCompleteCalls sh +
      (if decide (completedCount run < length (processes run)
                  ≤ completedCount run + length es)
       then 1 else 0).
Proof.
  induction es as [|e es IH]; intros sh run Hes.
  - exists sh, run. simpl. split_and!; try done; try lia.
    case_decide; lia.
  - apply Forall_cons in Hes as [He Hes].
    destruct (pipeline_event_counts e sh run He)
      as (sh1 & run1 & Hstep & Hp1 & Hc1 & Hcalls1).
    assert (Forall (handled run1) es) as Hes1.
    { eapply Forall_impl; [done|]. intros e'. unfold handled. by rewrite Hp1. }
    destruct (IH sh1 run1 Hes1) as (sh2 & run2 & Hrest & Hp2 & Hc2 & Hcalls2).
    exists sh2, run2. rewrite pipeline_events_cons, Hstep. split; [done|].
    split; [congruence|]. split; [simpl; lia|].
    rewrite Hcalls2, Hcalls1, Hp1, Hc1. simpl.
    repeat case_decide; lia.
Qed.

Section Wiring.

Variable pathJoin : string → string → string.
Variable pathResolve : string → string → string.
Variable findCommandInPath : string → option string.

(** When every external command is found, the loop makes one entry per
    stage and never calls back itself. *)
Lemma executePipeline_loop_entries commands :
  ∀ total i processes streams sh sh' entries,
    executePipeline_loop pathJoin pathResolve findCommandInPath
      total commands i processes streams sh = (sh', Some entries) →
    length entries = length processes + length commands
    ∧ onCompleteCalls sh' = onCompleteCalls sh.
Proof.
  induction commands as [|commandTokens commands IH];
    intros total i processes streams sh sh' entries Hloop.
  - simpl in Hloop. simplify_eq. simpl. split; [lia|done].
  - simpl in Hloop. destruct (isBuiltin _).
    + apply IH in Hloop as [Hlen Hcalls].
      rewrite length_app in Hlen. simpl in *.
      split; [lia|]. rewrite Hcalls, executeBuiltin_calls.
      by repeat case_match.
    + destruct (findCommandInPath _) as [fullPath|]; [|done].
      apply IH in Hloop as [Hlen Hcalls].
      rewrite length_app in Hlen. simpl in *.
      split; [lia|]. rewrite Hcalls.
      repeat first [ rewrite consume_calls | case_match ]; done.
Qed.

Lemma executePipeline_attached commands sh sh' run :
  executePipeline pathJoin pathResolve findCommandInPath commands sh
    = (sh', Some run) →
  0 < length commands
  ∧ length (processes run) = length commands
  ∧ completedCount run = 0
  ∧ onCompleteCalls sh' = onCompleteCalls sh.
Proof.
  unfold executePipeline. case_decide as Hn; [done|].
  destruct (executePipeline_loop _ _ _ _ _ _ _ _ _) as [sh1 [entries|]] eqn:Hloop;
    [|done].
  intros ?; simplify_eq. simpl.
  apply executePipeline_loop_entries in Hloop as [Hlen Hcalls].
  simpl in Hlen. split_and!; try done; lia.
Qed.

(** What [executePipeline] guarantees when every command of the plan is
    found and every stage signals at most once: the callback has run at
    most once, and it has run exactly when every stage has signalled. *)
Lemma executePipeline_completes_once commands sh sh' run es :
  executePipeline pathJoin pathResolve findCommandInPath commands sh
    = (sh', Some run) →
  Forall (handled run) es →
  NoDup (stage_of <$> es) →
  let calls := onCompleteCalls (pipeline_events es (sh', Some run)).1 in
  (calls = onCompleteCalls sh ∨ calls = S (onCompleteCalls sh))
  ∧ (calls = S (onCompleteCalls sh) ↔
     ∀ i, i < length commands → i ∈ stage_of <$> es).
Proof.
  intros Hexec Hes Hnodup.
  apply executePipeline_attached in Hexec as (Hpos & Hlen & Hcount & Hcalls).
  destruct (pipeline_events_count es sh' run Hes)
    as (sh2 & run2 & Hrun & _ & _ & Hcalls2).
  rewrite Hrun. simpl. rewrite Hcalls2, Hcalls, Hcount, Hlen. simpl.
  assert (∀ x, x ∈ stage_of <$> es → x ∈ seq 0 (length commands)) as Hsub.
  { intros x (e & -> & He)%list_elem_of_fmap. apply elem_of_seq.
    rewrite Forall_forall in Hes. apply Hes, handled_stage in He. lia. }
  assert (length commands ≤ length es ↔
          (∀ i, i < length commands → i ∈ stage_of <$> es)) as Hcover.
  { split.
    - intros Hle i Hi.
      assert (stage_of <$> es ≡ₚ seq 0 (length commands)) as ->.
      { apply submseteq_length_Permutation.
        - by apply NoDup_submseteq.
        - rewrite length_fmap, length_seq. lia. }
      apply elem_of_seq. lia.
    - intros Hall.
      assert (seq 0 (length commands) ⊆+ stage_of <$> es) as Hsm.
      { apply NoDup_submseteq; [apply NoDup_seq|].
        intros x Hx%elem_of_seq. apply Hall. lia. }
      apply submseteq_length in Hsm.
      by rewrite length_fmap, length_seq in Hsm. }
  clear Hcalls2.
  split.
  - case_decide; [right|left]; lia.
  - rewrite <- Hcover. case_decide; split; lia.
Qed.

End Wiring.

(** C1 at the plan [ls | nosuchcmd], on a search path that only holds
    [ls].  The first stage is spawned; the second is not found, and
    [executePipeline] prints the message, calls the completion callback
    and returns without attaching a handler.  The callback has run before
    any stage signalled, while the child of the first stage is running,
    and no later event of that child reaches the executor. *)
Theorem executePipeline_missing_command_completes_early :
  let st := executePipeline join_slash resolve_absolute find_ls
              [["ls"]; ["nosuchcmd"]] shell0 in
  onCompleteCalls st.1 = 1
  ∧ st.2 = None
  ∧ children st.1 =
      [mkChild "/bin/ls" [] "ls" (inherit, pipe, inherit) Unread Unread]
  ∧ stdout (console st.1) = "nosuchcmd: command not found" +:+ newline
  ∧ ∀ es, pipeline_events es st = st.
Proof.
  split_and!; try reflexivity.
  intros es.
  change (executePipeline join_slash resolve_absolute find_ls
            [["ls"]; ["nosuchcmd"]] shell0)
    with ((executePipeline join_slash resolve_absolute find_ls
            [["ls"]; ["nosuchcmd"]] shell0).1, @None PipelineRun).
  apply pipeline_events_detached.
Qed.

(** The same plan with both commands found: the callback waits for both
    stages. *)
Example executePipeline_waits_for_both :
  let st := executePipeline join_slash resolve_absolute find_ls
              [["ls"]; ["ls"; "-l"]] shell0 in
  onCompleteCalls st.1 = 0
  ∧ onCompleteCalls (pipeline_events [Close 1] st).1 = 0
  ∧ onCompleteCalls (pipeline_events [Close 1; Close 0] st).1 = 1.
Proof. vm_compute. done. Qed.

(** An internal command in front of an external one: [echo hi | ls]. *)
Example executePipeline_echo_ls :
  let st := executePipeline join_slash resolve_absolute find_ls
              [["echo"; "hi"]; ["ls"]] shell0 in
  passThroughs st.1 =
    [mkStream ("hi" +:+ newline) true (PipedToStdin 0)]
  ∧ children st.1 =
      [mkChild "/bin/ls" [] "ls" (pipe, inherit, inherit) Unread Unread]
  ∧ stdout (console st.1) = EmptyString
  ∧ onCompleteCalls (pipeline_events [Settled 0; Close 1] st).1 = 1.
Proof. vm_compute. done. Qed.

(** When a child emits both [error] and [close], its stage is counted
    twice, and the callback runs although the other stage has not
    signalled. *)
Example executePipeline_error_then_close :
  let st := executePipeline join_slash resolve_absolute find_ls
              [["ls"]; ["ls"; "-l"]] shell0 in
  onCompleteCalls (pipeline_events [Error 0 "spawn EACCES"; Close 0] st).1 = 1.
Proof. vm_compute. done. Qed.

(** Two [appendToFile] calls on a fresh history file. *)
Example appendToFile_twice_example :
  let r := append_twice "hist" (mkHistoryManager ["ls"; "pwd"] 0) fs0 in
  file_bytes "hist" r.1.2 = "ls" +:+ newline +:+ "pwd" +:+ newline
  ∧ file_bytes "hist" r.2.2 = "ls" +:+ newline +:+ "pwd" +:+ newline
  ∧ lastSavedIndex r.1.1.2 = 2.
Proof. vm_compute. done. Qed.

(* ===================================================================== *)
(** * Part III: further properties of the code                            *)
(* ===================================================================== *)

(** ** The tokenizer, continued *)

(** More fuel than characters changes nothing. *)
Lemma loop_fuel_irrelevant n :
  ∀ m st,
    String.length (CommandParser.rest st) ≤ n →
    String.length (CommandParser.rest st) ≤ m →
    CommandParser.loop n st = CommandParser.loop m st.
Proof.
  induction n as [|n IH]; intros m st Hn Hm.
  - destruct (CommandParser.rest st) eqn:Hr; [|simpl in Hn; lia].
    destruct m; simpl; by rewrite ?Hr.
  - simpl. destruct (CommandParser.rest st) as [|c tl] eqn:Hr.
    + destruct m; simpl; by rewrite ?Hr.
    + destruct m as [|m]; [simpl in Hm; lia|]. simpl. rewrite Hr.
      pose proof (step_consumes st) as Hstep. rewrite Hr in Hstep.
      specialize (Hstep ltac:(done)). simpl in *.
      apply IH; lia.
Qed.

Lemma loop_unfold n st c tl :
  CommandParser.rest st = String c tl →
  String.length (CommandParser.rest st) ≤ n →
  CommandParser.loop n st =
  CommandParser.loop (String.length (CommandParser.rest (CommandParser.step st)))
    (CommandParser.step st).
Proof.
  intros Hr Hn. destruct n as [|n]; [rewrite Hr in Hn; simpl in Hn; lia|].
  simpl. rewrite Hr.
  pose proof (step_consumes st) as Hstep. rewrite Hr in Hstep.
  specialize (Hstep ltac:(done)). rewrite Hr in Hn. simpl in *.
  apply loop_fuel_irrelevant; lia.
Qed.

Lemma step_tokens_nonempty st :
  Forall (λ t, t ≠ EmptyString) (CommandParser.tokens st) →
  Forall (λ t, t ≠ EmptyString) (CommandParser.tokens (CommandParser.step st)).
Proof.
  destruct st as [r toks cur inS inD]. unfold CommandParser.step. simpl.
  intros Htoks. destruct r as [|char tl]; [done|].
  repeat (case_match; simpl; try done).
  apply Forall_app. split; [done|]. apply Forall_singleton.
  intros ->. by match goal with H : bool_decide _ = true |- _ =>
    apply bool_decide_eq_true in H; simpl in H; lia end.
Qed.

Lemma loop_tokens_nonempty fuel st :
  Forall (λ t, t ≠ EmptyString) (CommandParser.tokens st) →
  Forall (λ t, t ≠ EmptyString)
    (CommandParser.tokens (CommandParser.loop fuel st)).
Proof.
  revert st. induction fuel as [|fuel IH]; intros st Hst; simpl; [done|].
  destruct (CommandParser.rest st); [done|].
  by apply IH, step_tokens_nonempty.
Qed.

(** X1: no token of the tokenizer is the empty string, whatever the input:
    a token is pushed only when [currentToken.length > 0], so an empty pair
    of quotes standing alone gives no argument at all. *)
Theorem parseCommandLine_tokens_nonempty (input : string) :
  Forall (λ t, t ≠ EmptyString) (CommandParser.parseCommandLine input).
Proof.
  unfold CommandParser.parseCommandLine, CommandParser.finish.
  pose proof (loop_tokens_nonempty (String.length input)
                (CommandParser.init input) (Forall_nil_2 _)) as Htoks.
  case_bool_decide as Hlen; [|done].
  apply Forall_app. split; [done|]. apply Forall_singleton.
  intros Heq. rewrite Heq in Hlen. simpl in Hlen. lia.
Qed.

(** The loop run to the end of the input. *)
Lemma run_step c tl toks cur inS inD :
  CommandParser.loop (String.length (String c tl))
    (CommandParser.mkState (String c tl) toks cur inS inD) =
  CommandParser.loop
    (String.length
       (CommandParser.rest
          (CommandParser.step
             (CommandParser.mkState (String c tl) toks cur inS inD))))
    (CommandParser.step (CommandParser.mkState (String c tl) toks cur inS inD)).
Proof. by eapply loop_unfold. Qed.

Lemma plain_char_step c tl toks cur :
  plain_char c →
  CommandParser.step (CommandParser.mkState (String c tl) toks cur false false)
  = CommandParser.mkState tl toks (cur +:+ str c) false false.
Proof.
  intros (Hsp & Htab & Hsq & Hdq & Hbs). unfold CommandParser.step. simpl.
  rewrite !bool_decide_false by done. simpl.
  unfold is_blank. by rewrite !bool_decide_false by done.
Qed.

(** A run of plain characters outside quotes is appended to the current
    token. *)
Lemma run_plain_chars w :
  Forall plain_char (chars w) →
  ∀ r toks cur,
    CommandParser.loop (String.length (w +:+ r))
      (CommandParser.mkState (w +:+ r) toks cur false false)
    = CommandParser.loop (String.length r)
        (CommandParser.mkState r toks (cur +:+ w) false false).
Proof.
  induction w as [|c w IH]; intros Hw r toks cur.
  - by rewrite string_app_nil_r.
  - apply Forall_cons in Hw as [Hc Hw].
    change (String c w +:+ r) with (String c (w +:+ r)).
    rewrite run_step.
    rewrite plain_char_step by done. simpl CommandParser.rest.
    rewrite IH by done. by rewrite string_app_assoc.
Qed.

Lemma skipWhitespace_plain c s :
  plain_char c → skipWhitespace (String c s) = String c s.
Proof.
  intros (Hsp & Htab & _). simpl. unfold is_blank.
  by rewrite !bool_decide_false by done.
Qed.

Lemma blank_step c s toks cur :
  plain_char c → cur ≠ EmptyString →
  CommandParser.step
    (CommandParser.mkState (String SPACE (String c s)) toks cur false false)
  = CommandParser.mkState (String c s) (toks ++ [cur]) EmptyString false false.
Proof.
  intros (Hsp & Htab & _) Hcur. unfold CommandParser.step. simpl.
  rewrite bool_decide_true by (destruct cur; [done|simpl; lia]).
  unfold is_blank. by rewrite !bool_decide_false by done.
Qed.

Lemma plain_words_tokens ws :
  Forall plain_word ws →
  ∀ toks,
    CommandParser.finish
      (CommandParser.loop (String.length (join " " ws))
         (CommandParser.mkState (join " " ws) toks EmptyString false false))
    = toks ++ ws.
Proof.
  induction ws as [|w ws IH]; intros Hws toks.
  - simpl. by rewrite app_nil_r.
  - apply Forall_cons in Hws as [[Hne Hw] Hws].
    destruct ws as [|w2 ws].
    + simpl join. rewrite <- (string_app_nil_r w) at 1 2.
      rewrite run_plain_chars by done. simpl.
      unfold CommandParser.finish. simpl.
      rewrite bool_decide_true; [done|].
      destruct w; [done|simpl; lia].
    + change (join " " (w :: w2 :: ws))
        with (w +:+ String SPACE (join " " (w2 :: ws))).
      rewrite run_plain_chars by done.
      change (EmptyString +:+ w) with w.
      specialize (IH Hws (toks ++ [w])).
      assert (∃ c s, join " " (w2 :: ws) = String c s ∧ plain_char c)
        as (c & s & Hj & Hc).
      { apply Forall_cons in Hws as [[Hne2 Hw2] _].
        destruct w2 as [|c w2]; [done|].
        apply Forall_cons in Hw2 as [Hc _].
        destruct ws; simpl; eauto. }
      rewrite Hj in *.
      rewrite run_step, blank_step by done. simpl CommandParser.rest.
      rewrite IH. by rewrite <- app_assoc.
Qed.

(** X2: splitting is the inverse of joining for plain words.  When every
    word is non-empty and holds no space, tab, quote or backslash, the
    tokens of the words joined by single spaces are the words. *)
Theorem parseCommandLine_join_roundtrip (ws : list string) :
  Forall plain_word ws →
  CommandParser.parseCommandLine (join " " ws) = ws.
Proof.
  intros Hws. unfold CommandParser.parseCommandLine, CommandParser.init.
  by rewrite plain_words_tokens.
Qed.

Lemma parseCommandLine_join_roundtrip_witness :
  CommandParser.parseCommandLine (join " " ["grep"; "-v"; "a|b"; ">"; "out.txt"])
  = ["grep"; "-v"; "a|b"; ">"; "out.txt"].
Proof.
  apply (parseCommandLine_join_roundtrip ["grep"; "-v"; "a|b"; ">"; "out.txt"]).
  repeat constructor; try discriminate.
Defined.

(** ** The pipeline splitter, continued *)

Lemma unsplit_snoc commands stage :
  unsplit (commands ++ [stage]) = pending commands stage.
Proof.
  unfold pending. induction commands as [|s commands IH]; [done|].
  simpl app. destruct (commands ++ [stage]) as [|s' l] eqn:Hl.
  { by destruct commands. }
  change (unsplit (s :: s' :: l)) with (s ++ "|" :: unsplit (s' :: l)).
  rewrite IH. simpl. by rewrite <- !app_assoc.
Qed.

Lemma parsePipeline_loop_Some tokens :
  ∀ commands cur commands' cur',
    parsePipeline_loop tokens commands cur = Some (commands', cur') →
    Forall proper_stage commands → "|" ∉ cur →
    pending commands' cur' = pending commands cur ++ tokens
    ∧ Forall proper_stage commands' ∧ "|" ∉ cur'.
Proof.
  induction tokens as [|t tokens IH];
    intros commands cur commands' cur' Hloop Hcs Hcur.
  - simpl in Hloop. simplify_eq. by rewrite app_nil_r.
  - simpl in Hloop. case_decide as Ht.
    + case_decide as Hlen; [done|]. subst t.
      apply IH in Hloop as (Hp & Hcs' & Hcur').
      * split; [|done]. rewrite Hp. unfold pending.
        rewrite fmap_app, concat_app. simpl.
        by rewrite !app_nil_r, <- !app_assoc.
      * apply Forall_app. split; [done|]. apply Forall_singleton.
        split; [by destruct cur|done].
      * apply not_elem_of_nil.
    + apply IH in Hloop as (Hp & Hcs' & Hcur').
      * split; [|done]. rewrite Hp. unfold pending.
        by rewrite <- !app_assoc.
      * done.
      * rewrite elem_of_app, list_elem_of_singleton.
        intros [?|?]; [done|congruence].
Qed.

(** X3: when the splitter returns a plan that is not empty, it has printed
    nothing, every stage of the plan is non-empty and free of [|], and the
    stages written back with a [|] between neighbours are the tokens it was
    given: no token is lost, added or reordered. *)
Theorem parsePipeline_plan_sound
    (tokens : list string) (c c' : Console) (plan : list (list string)) :
  parsePipeline tokens c = (c', plan) → plan ≠ [] →
  c' = c ∧ unsplit plan = tokens ∧ Forall proper_stage plan.
Proof.
  unfold parsePipeline. intros Hp Hne.
  destruct (parsePipeline_loop tokens [] []) as [[commands cur]|] eqn:Hloop;
    [|by simplify_eq].
  apply parsePipeline_loop_Some in Hloop as (Hpend & Hcs & Hcur);
    [|done|apply not_elem_of_nil].
  simpl in Hpend.
  case_decide as H1; [by simplify_eq|].
  case_decide as H2; simplify_eq.
  - split; [done|]. split; [by rewrite unsplit_snoc|].
    apply Forall_app. split; [done|]. apply Forall_singleton.
    split; [by destruct cur; simpl in *; [lia|]|done].
  - destruct cur; [|simpl in *; lia]. destruct plan; [done|].
    exfalso. apply H1. simpl. split; lia.
Qed.

Lemma parsePipeline_plan_sound_witness :
  console0 = console0
  ∧ unsplit [["cat"; "f"]; ["grep"; "x"]; ["wc"]]
    = ["cat"; "f"; "|"; "grep"; "x"; "|"; "wc"]
  ∧ Forall proper_stage [["cat"; "f"]; ["grep"; "x"]; ["wc"]].
Proof.
  apply (parsePipeline_plan_sound
           ["cat"; "f"; "|"; "grep"; "x"; "|"; "wc"] console0 console0
           [["cat"; "f"]; ["grep"; "x"]; ["wc"]]).
  - reflexivity.
  - discriminate.
Defined.

Lemma parsePipeline_loop_unsplit plan :
  plan ≠ [] → Forall proper_stage plan →
  ∀ commands, ∃ front final,
    plan = front ++ [final] ∧
    parsePipeline_loop (unsplit plan) commands [] =
    Some (commands ++ front, final).
Proof.
  induction plan as [|stage plan IH]; intros Hne Hplan commands; [done|].
  apply Forall_cons in Hplan as [[Hs Hpipe] Hplan].
  destruct plan as [|stage2 plan].
  - exists [], stage. split; [done|]. simpl.
    rewrite parsePipeline_loop_no_pipe by done. by rewrite app_nil_r.
  - change (unsplit (stage :: stage2 :: plan))
      with (stage ++ "|" :: unsplit (stage2 :: plan)).
    rewrite parsePipeline_loop_app, parsePipeline_loop_no_pipe by done.
    simpl app. cbn [parsePipeline_loop].
    rewrite decide_True by done.
    rewrite decide_False by (by destruct stage).
    destruct (IH ltac:(done) Hplan (commands ++ [stage]))
      as (front & final & Heq & Hloop).
    exists (stage :: front), final. split; [by rewrite Heq|].
    rewrite Hloop. by rewrite <- app_assoc.
Qed.

Lemma parsePipeline_of_unsplit plan c :
  plan ≠ [] → Forall proper_stage plan →
  parsePipeline (unsplit plan) c = (c, plan).
Proof.
  intros Hne Hplan. unfold parsePipeline.
  destruct (parsePipeline_loop_unsplit plan Hne Hplan [])
    as (front & final & -> & ->).
  apply Forall_app in Hplan as [_ [Hfinal _]%Forall_singleton].
  simpl. rewrite decide_False by (destruct final; simpl; [done|lia]).
  by rewrite decide_True by (destruct final; simpl; [done|lia]).
Qed.

(** X4: every plan of non-empty stages free of [|] is what the splitter
    returns, without printing, for the plan written as one token list:
    splitting undoes joining. *)
Theorem parsePipeline_unsplit (plan : list (list string)) (c : Console) :
  plan ≠ [] → Forall proper_stage plan →
  parsePipeline (unsplit plan) c = (c, plan).
Proof. apply parsePipeline_of_unsplit. Qed.

Lemma parsePipeline_unsplit_witness :
  parsePipeline (unsplit [["ls"; "-l"]; ["wc"; "-l"]]) console0
  = (console0, [["ls"; "-l"]; ["wc"; "-l"]]).
Proof.
  apply (parsePipeline_unsplit [["ls"; "-l"]; ["wc"; "-l"]] console0).
  - discriminate.
  - repeat constructor; try discriminate;
      intros H; repeat (apply elem_of_cons in H as [H|H]; [discriminate H|]);
      by apply elem_of_nil in H.
Defined.

Lemma parsePipeline_loop_None tokens :
  ∀ commands cur,
    parsePipeline_loop tokens commands cur = None →
    (cur = [] ∧ ∃ rest, tokens = "|" :: rest)
    ∨ (∃ pre rest, tokens = pre ++ "|" :: "|" :: rest).
Proof.
  induction tokens as [|t tokens IH]; intros commands cur Hloop; [done|].
  simpl in Hloop. case_decide as Ht.
  - subst t. case_decide as Hlen.
    + left. split; [by destruct cur|by eexists].
    + right. apply IH in Hloop as [[_ [rest ->]]|(pre & rest & ->)].
      * by exists [], rest.
      * by exists ("|" :: pre), rest.
  - right. apply IH in Hloop as [[Hcur _]|(pre & rest & ->)].
    + by destruct cur.
    + by exists (t :: pre), rest.
Qed.

Lemma parsePipeline_loop_ends_empty tokens :
  ∀ commands cur commands',
    parsePipeline_loop tokens commands cur = Some (commands', []) →
    (tokens = [] ∧ cur = []) ∨ (∃ pre, tokens = pre ++ ["|"]).
Proof.
  induction tokens as [|t tokens IH]; intros commands cur commands' Hloop.
  - simpl in Hloop. simplify_eq. by left.
  - right. simpl in Hloop. case_decide as Ht.
    + subst t. case_decide; [done|].
      apply IH in Hloop as [[-> _]|[pre ->]].
      * by exists [].
      * by exists ("|" :: pre).
    + apply IH in Hloop as [[_ Hcur]|[pre ->]].
      * by destruct cur.
      * by exists (t :: pre).
Qed.

(** X5: the converse of the rejection rule.  For tokens that are not
    empty, the splitter returns the empty plan only when a [|] stands at
    the very start, at the very end or right after another [|]; in every
    other case the plan has at least one stage. *)
Theorem parsePipeline_empty_plan_inv (tokens : list string) (c : Console) :
  tokens ≠ [] → (parsePipeline tokens c).2 = [] → empty_stage tokens.
Proof.
  unfold parsePipeline, empty_stage. intros Hne Hplan.
  destruct (parsePipeline_loop tokens [] []) as [[commands cur]|] eqn:Hloop.
  - destruct cur as [|t cur].
    + apply parsePipeline_loop_ends_empty in Hloop as [[-> _]|Hend];
        [done|by right; left].
    + simpl in Hplan. by destruct commands.
  - apply parsePipeline_loop_None in Hloop as [[_ Hstart]|Hdouble];
      [by left|by right; right].
Qed.

Lemma parsePipeline_empty_plan_inv_witness : empty_stage ["ls"; "|"].
Proof.
  apply (parsePipeline_empty_plan_inv ["ls"; "|"] console0).
  - discriminate.
  - reflexivity.
Defined.

(** ** The redirection extractor, continued *)

Lemma operatorAt_out_of_range tokens j :
  length tokens ≤ j → operatorAt tokens j = None.
Proof. intros H. unfold operatorAt. by rewrite lookup_ge_None_2. Qed.

(** What a scan that stops has found, and what it has passed over. *)
Lemma parseRedirection_scan_Some tokens rest :
  ∀ i f,
    drop i tokens = rest →
    parseRedirection_scan tokens i rest = Some f →
    i ≤ foundIndex f
    ∧ (∀ j, i ≤ j < foundIndex f → operatorAt tokens j = None)
    ∧ ∃ width,
        operatorAt tokens (foundIndex f)
          = Some (foundFd f, foundAppend f, width)
        ∧ foundFile f = tokens !! (foundIndex f + width).
Proof.
  induction rest as [|token rest IH]; intros i f Hdrop Hscan; [done|].
  assert (tokens !! i = Some token) as Hi.
  { rewrite <- (Nat.add_0_r i), <- lookup_drop, Hdrop. done. }
  rewrite parseRedirection_scan_step in Hscan by done.
  destruct (operatorAt tokens i) as [[[fd append] width]|] eqn:Hop.
  - simplify_eq. simpl. split; [done|]. split; [intros; lia|].
    by exists width.
  - apply IH in Hscan as (Hle & Hnone & Hfound).
    + split; [lia|]. split; [|done].
      intros j Hj. destruct (decide (j = i)) as [->|]; [done|].
      apply Hnone. lia.
    + replace (S i) with (i + 1) by lia. by rewrite <- drop_drop, Hdrop.
Qed.

Lemma parseRedirection_scan_None tokens rest :
  ∀ i,
    drop i tokens = rest →
    parseRedirection_scan tokens i rest = None →
    ∀ j, i ≤ j → operatorAt tokens j = None.
Proof.
  induction rest as [|token rest IH]; intros i Hdrop Hscan j Hj.
  - apply operatorAt_out_of_range. apply drop_nil_inv in Hdrop. lia.
  - assert (tokens !! i = Some token) as Hi.
    { rewrite <- (Nat.add_0_r i), <- lookup_drop, Hdrop. done. }
    rewrite parseRedirection_scan_step in Hscan by done.
    destruct (operatorAt tokens i) as [[[fd append] width]|] eqn:Hop; [done|].
    destruct (decide (j = i)) as [->|]; [done|].
    apply (IH (S i)); [|done|lia].
    replace (S i) with (i + 1) by lia. by rewrite <- drop_drop, Hdrop.
Qed.

Lemma parseRedirection_without_operator tokens :
  (hasRedirection (parseRedirection tokens) = false
     ↔ ∀ j, operatorAt tokens j = None)
  ∧ (hasRedirection (parseRedirection tokens) = false →
     parseRedirection tokens = mkRedirectionInfo false tokens None 1 false).
Proof.
  unfold parseRedirection.
  destruct (parseRedirection_scan tokens 0 tokens) as [f|] eqn:Hscan; simpl.
  - split; [|done]. split; [done|]. intros Hnone.
    apply parseRedirection_scan_Some in Hscan as (_ & _ & width & Hop & _);
      [|done].
    by rewrite Hnone in Hop.
  - split; [|done]. split; [|done]. intros _ j.
    eapply parseRedirection_scan_None; [|done|lia]. done.
Qed.

(** X6: the extractor reports no redirection exactly when no position of
    the token list holds a recognized operator, and then it returns the
    tokens unchanged with the defaults: null target, descriptor 1,
    overwrite. *)
Theorem parseRedirection_none_iff (tokens : list string) :
  (hasRedirection (parseRedirection tokens) = false
     ↔ ∀ j, operatorAt tokens j = None)
  ∧ (hasRedirection (parseRedirection tokens) = false →
     parseRedirection tokens = mkRedirectionInfo false tokens None 1 false).
Proof. apply parseRedirection_without_operator. Qed.

(** A position before the cut that holds no operator in the whole list
    holds none in the command tokens either. *)
Lemma operatorAt_take_None tokens k j :
  operatorAt tokens j = None → operatorAt (take k tokens) j = None.
Proof.
  unfold operatorAt. intros Hop.
  destruct (decide (j < k)) as [Hjk|Hjk];
    [|by rewrite (lookup_ge_None_2 (take k tokens) j)
        by (rewrite length_take; lia)].
  rewrite lookup_take_lt by done.
  destruct (tokens !! j) as [token|]; [|done].
  destruct (assoc token operator_table) as [[fd append]|]; [done|].
  destruct (assoc token fd_table) as [fd|]; [|done].
  destruct (decide (j + 1 < k)) as [Hj1|Hj1].
  - by rewrite lookup_take_lt by done.
  - by rewrite (lookup_ge_None_2 (take k tokens) (j + 1))
      by (rewrite length_take; lia).
Qed.

Lemma operatorAt_fd tokens i fd append width :
  operatorAt tokens i = Some (fd, append, width) → fd = 1 ∨ fd = 2.
Proof.
  unfold operatorAt. intros Hop.
  destruct (tokens !! i) as [token|]; [|done].
  destruct (assoc token operator_table) as [[fd' append']|] eqn:Hone.
  - simpl in Hone. repeat case_decide; simplify_eq; auto.
  - destruct (assoc token fd_table) as [fd'|] eqn:Hfd; [|done].
    simpl in Hfd. repeat case_match; repeat case_decide; simplify_eq; auto.
Qed.

(** X7: the command tokens the extractor returns are a prefix of the
    tokens it was given and hold no redirection themselves: extracting
    again finds nothing and gives the same command tokens back.  The
    descriptor it reports is always 1 or 2. *)
Theorem parseRedirection_commandTokens (tokens : list string) :
  commandTokens (parseRedirection tokens) `prefix_of` tokens
  ∧ parseRedirection (commandTokens (parseRedirection tokens)) =
      mkRedirectionInfo false (commandTokens (parseRedirection tokens))
        None 1 false
  ∧ (redirectFd (parseRedirection tokens) = 1
     ∨ redirectFd (parseRedirection tokens) = 2).
Proof.
  destruct (hasRedirection (parseRedirection tokens)) eqn:Hhas.
  - unfold parseRedirection in *.
    destruct (parseRedirection_scan tokens 0 tokens) as [f|] eqn:Hscan;
      [|done].
    apply parseRedirection_scan_Some in Hscan as (_ & Hnone & width & Hop & _);
      [|done].
    simpl. split; [apply prefix_take|]. split.
    + apply (proj2 (parseRedirection_without_operator _)).
      apply (proj1 (parseRedirection_without_operator _)). intros j.
      destruct (decide (j < foundIndex f)) as [Hj|Hj].
      * apply operatorAt_take_None, Hnone. lia.
      * apply operatorAt_out_of_range. rewrite length_take. lia.
    + by eapply operatorAt_fd.
  - apply (proj2 (parseRedirection_without_operator _)) in Hhas as Heq.
    rewrite Heq. simpl. rewrite Heq. split; [done|]. split; [done|by left].
Qed.

(** ** The history manager, continued *)

Lemma history_op_marker op st :
  lastSavedIndex st.1 ≤ length (history st.1) →
  lastSavedIndex (history_op op st).1 ≤ length (history (history_op op st).1).
Proof.
  destruct st as [h fs]. destruct op as [c|F|F|F]; simpl; intros Hle.
  - rewrite length_app. simpl. lia.
  - unfold readFromFile. by destruct (readFileSync F fs).
  - unfold writeToFile. by destruct (writeFileSync F _ fs).
  - unfold appendToFile. case_decide; [done|].
    by destruct (appendFileSync F _ fs).
Qed.

(** X8: whatever sequence of [addCommand], [readFromFile], [writeToFile]
    and [appendToFile] calls a fresh history manager goes through, on
    whatever file system and whether the calls succeed or fail, the
    last-saved marker never exceeds the number of entries, so
    [history.slice(lastSavedIndex)] is always exactly the unsaved tail. *)
Theorem history_marker_within (ops : list HistoryOp) (fs : FileSystem) :
  lastSavedIndex (history_ops ops (createHistoryManager, fs)).1
  ≤ length (history (history_ops ops (createHistoryManager, fs)).1).
Proof.
  assert (∀ st, lastSavedIndex st.1 ≤ length (history st.1) →
            lastSavedIndex (history_ops ops st).1
            ≤ length (history (history_ops ops st).1)) as Hgen.
  { unfold history_ops. induction ops as [|op ops IH]; intros st Hst; [done|].
    simpl. by apply IH, history_op_marker. }
  apply Hgen. simpl. lia.
Qed.


Lemma join_newline_lines entries :
  entries ≠ [] → join newline entries +:+ newline = lines_text entries.
Proof.
  intros Hne. rewrite <- writeToFile_content.
  rewrite decide_True; [done|]. destruct entries; [done|simpl; lia].
Qed.

Lemma appendToFile_appended_bytes F h fs :
  F ∉ readonly fs →
  lastSavedIndex h ≤ length (history h) →
  ∃ h' fs',
    appendToFile F h fs = (true, h', fs')
    ∧ file_bytes F fs' =
        file_bytes F fs +:+ lines_text (drop (lastSavedIndex h) (history h))
    ∧ history h' = history h
    ∧ lastSavedIndex h' = length (history h)
    ∧ ∀ G, G ≠ F → files fs' !! G = files fs !! G.
Proof.
  intros HF Hle. unfold appendToFile, appendFileSync.
  case_decide as Hnew.
  - exists h, fs. split; [done|]. rewrite drop_ge by done. simpl.
    rewrite string_app_nil_r. split_and!; try done; lia.
  - rewrite decide_False by done. eexists _, _. split; [reflexivity|].
    unfold file_bytes. simpl. rewrite lookup_insert_eq. simpl.
    rewrite join_newline_lines.
    + split_and!; try done. intros G HG. by rewrite lookup_insert_ne.
    + intros Hd. apply (f_equal length) in Hd.
      rewrite length_drop in Hd. simpl in Hd. lia.
Qed.

(** X9: [appendToFile(F)] on a path that can be written adds to [F]
    exactly the entries after the last-saved marker, each followed by a
    line feed, after what [F] already held; it changes no entry, moves the
    marker to the end of the history, and leaves every other file alone. *)
Theorem appendToFile_appends_unsaved
    (F : string) (h : HistoryManager) (fs : FileSystem) :
  F ∉ readonly fs →
  lastSavedIndex h ≤ length (history h) →
  ∃ h' fs',
    appendToFile F h fs = (true, h', fs')
    ∧ file_bytes F fs' =
        file_bytes F fs +:+ lines_text (drop (lastSavedIndex h) (history h))
    ∧ history h' = history h
    ∧ lastSavedIndex h' = length (history h)
    ∧ ∀ G, G ≠ F → files fs' !! G = files fs !! G.
Proof. apply appendToFile_appended_bytes. Qed.

Lemma appendToFile_appends_unsaved_witness :
  ∃ h' fs',
    appendToFile "hist" (mkHistoryManager ["ls"; "pwd"; "cd /"] 1) fs0
      = (true, h', fs')
    ∧ file_bytes "hist" fs' =
        file_bytes "hist" fs0 +:+ lines_text (drop 1 ["ls"; "pwd"; "cd /"])
    ∧ history h' = ["ls"; "pwd"; "cd /"]
    ∧ lastSavedIndex h' = 3
    ∧ ∀ G, G ≠ "hist" → files fs' !! G = files fs0 !! G.
Proof.
  apply (appendToFile_appends_unsaved "hist"
           (mkHistoryManager ["ls"; "pwd"; "cd /"] 1) fs0).
  - simpl. apply not_elem_of_empty.
  - simpl. lia.
Defined.

Lemma split_nonempty sep s : split sep s ≠ [].
Proof.
  destruct s as [|c s]; simpl; [done|].
  case_decide; [done|]. by destruct (split sep s).
Qed.

Lemma split_no_separator sep s :
  Forall (λ piece, ¬ has_char sep piece) (split sep s).
Proof.
  induction s as [|c s IH]; simpl.
  - apply Forall_singleton. unfold has_char. simpl. apply not_elem_of_nil.
  - case_decide as Hc.
    + apply Forall_cons. split; [|done].
      unfold has_char. simpl. apply not_elem_of_nil.
    + destruct (split sep s) as [|first others] eqn:Hsplit;
        [by apply split_nonempty in Hsplit|].
      apply Forall_cons in IH as [Hfirst Hothers].
      apply Forall_cons. split; [|done].
      rewrite has_char_cons. intros [->|?]; done.
Qed.

Lemma readFromFile_lines_storable content :
  Forall storable (push_all (filter nonempty (split LF content)) []).
Proof.
  rewrite push_all_app. simpl.
  apply Forall_forall. intros e [Hne He]%list_elem_of_filter.
  split; [done|].
  pose proof (split_no_separator LF content) as Hall.
  rewrite Forall_forall in Hall. by apply Hall.
Qed.

(** X10: [readFromFile] never touches the file system.  When it fails the
    manager is as before; when it succeeds every entry it has loaded is
    non-empty and free of line feeds, the marker stands at the end of the
    history, and an [appendToFile] right after it, to any path, succeeds
    without writing a byte: loaded entries are not saved again. *)
Theorem readFromFile_result
    (F : string) (h : HistoryManager) (fs : FileSystem) :
  (readFromFile F h fs).2 = fs
  ∧ ((readFromFile F h fs).1.1 = false →
       (readFromFile F h fs).1.2 = h ∧ files fs !! F = None)
  ∧ ((readFromFile F h fs).1.1 = true →
       Forall storable (history (readFromFile F h fs).1.2)
       ∧ lastSavedIndex (readFromFile F h fs).1.2
         = length (history (readFromFile F h fs).1.2)
       ∧ ∀ G, appendToFile G (readFromFile F h fs).1.2 fs
              = (true, (readFromFile F h fs).1.2, fs)).
Proof.
  unfold readFromFile, readFileSync.
  destruct (files fs !! F) as [content|]; simpl.
  - split; [done|]. split; [done|]. intros _.
    split; [apply readFromFile_lines_storable|]. split; [done|].
    intros G. unfold appendToFile. simpl. by rewrite decide_True.
  - done.
Qed.



(** ** The internal commands, continued *)

Section BuiltinFacts.

Variable pathJoin : string → string → string.
Variable pathResolve : string → string → string.
Variable findCommandInPath : string → option string.

Lemma stream_end_ended id sh :
  is_Some (passThroughs sh !! id) → stream_ended id (stream_end id sh).
Proof.
  intros [st Hst]. unfold stream_ended, stream_end. simpl.
  rewrite list_lookup_alter, decide_True by done. rewrite Hst. simpl.
  by eexists.
Qed.

Lemma stream_write_lookup id output sh :
  is_Some (passThroughs sh !! id) →
  is_Some (passThroughs (stream_write id output sh) !! id).
Proof.
  intros [st Hst]. unfold stream_write. simpl.
  rewrite list_lookup_alter, decide_True by done. rewrite Hst. by eexists.
Qed.

Lemma stream_ended_is_Some id sh :
  stream_ended id sh → is_Some (passThroughs sh !! id).
Proof. intros (st & Hst & _). by eexists. Qed.

Lemma writeOutput_ended output id sh :
  is_Some (passThroughs sh !! id) →
  stream_ended id (writeOutput output (Some id) sh).
Proof. intros H. by apply stream_end_ended, stream_write_lookup. Qed.

Lemma consume_lookup ref c id sh :
  is_Some (passThroughs sh !! id) →
  is_Some (passThroughs (consume ref c sh) !! id).
Proof.
  intros [st Hst]. destruct ref as [id'|pid]; simpl; [|by eexists].
  rewrite list_lookup_alter. case_decide; subst; rewrite Hst; by eexists.
Qed.

(** The stream is ended by each of the five commands. *)
Lemma executeBuiltin_ends command args inputStream id sh :
  command ∈ handled_builtins →
  is_Some (passThroughs sh !! id) →
  stream_ended id
    (executeBuiltin pathJoin pathResolve findCommandInPath
       command args inputStream (Some id) sh).
Proof.
  intros Hcmd Hid. unfold executeBuiltin.
  assert (is_Some (passThroughs
            (match inputStream with
             | Some ref => consume ref Discarded sh
             | None => sh
             end) !! id)) as Hid'.
  { destruct inputStream; [by apply consume_lookup|done]. }
  revert Hid'. generalize (match inputStream with
                           | Some ref => consume ref Discarded sh
                           | None => sh
                           end). clear Hid sh. intros sh Hid.
  unfold handled_builtins in Hcmd.
  repeat (apply elem_of_cons in Hcmd as [->|Hcmd]);
    [..|by apply elem_of_nil in Hcmd]; simpl.
  - by apply writeOutput_ended.
  - by apply writeOutput_ended.
  - unfold executeCd, chdir.
    repeat case_match; simplify_eq;
      first [ by apply writeOutput_ended
            | by apply stream_end_ended
            | by apply stream_end_ended, stream_ended_is_Some,
                   writeOutput_ended ].
  - unfold executeType.
    repeat case_match; by apply writeOutput_ended.
  - unfold executeHistory, history_file_mode.
    repeat first [ case_decide | case_match ]; simplify_eq;
      first [ by apply writeOutput_ended
            | by apply stream_end_ended ].
Qed.

End BuiltinFacts.

(** X12: inside a pipeline, each of [echo], [pwd], [cd], [type] and
    [history] ends the output stream it was given, on every path through
    the command, so the next stage sees the end of its input.  A command
    name [executeBuiltin] has no case for ([exit] among them) does nothing
    at all: the stream it was given stays open. *)
Theorem executeBuiltin_ends_output
    (pathJoin pathResolve : string → string → string)
    (findCommandInPath : string → option string)
    (command : string) (args : list string) (inputStream : option StreamRef)
    (id : nat) (sh : Shell) :
  (command ∈ handled_builtins → is_Some (passThroughs sh !! id) →
     stream_ended id
       (executeBuiltin pathJoin pathResolve findCommandInPath
          command args inputStream (Some id) sh))
  ∧ (command ∉ handled_builtins →
     executeBuiltin pathJoin pathResolve findCommandInPath
       command args None (Some id) sh = sh).
Proof.
  split; [apply executeBuiltin_ends|].
  intros Hcmd. unfold executeBuiltin, handled_builtins in *.
  repeat (case_decide; [subst; exfalso; apply Hcmd;
                        repeat constructor|]).
  done.
Qed.





Lemma substring_all s : String.substring 0 (String.length s) s = s.
Proof. induction s as [|c s IH]; simpl; [done|]. by rewrite IH. Qed.

Lemma slice_tilde_slash sub : slice 2 ("~/" +:+ sub) = sub.
Proof.
  unfold slice. change ("~/" +:+ sub) with (String "~" (String "/" sub)).
  simpl. rewrite Nat.sub_0_r. apply substring_all.
Qed.

(** X15: the tilde expansion of [cd].  With [HOME] set to a non-empty
    path, [cd], [cd ~] and [cd ~/SUB] silently move to [HOME], [HOME] and
    [path.join(HOME, SUB)] when that directory exists. *)
Theorem executeCd_tilde
    (pathJoin pathResolve : string → string → string)
    (home sub : string) (sh : Shell) :
  HOME sh = Some home → home ≠ EmptyString →
  startsWith "~" home = false →
  (pathResolve (cwd sh) home ∈ directories (fs sh) →
     executeCd pathJoin pathResolve [] None sh
       = with_cwd (pathResolve (cwd sh) home) sh
     ∧ executeCd pathJoin pathResolve ["~"] None sh
       = with_cwd (pathResolve (cwd sh) home) sh)
  ∧ (pathJoin home sub ≠ EmptyString →
     pathResolve (cwd sh) (pathJoin home sub) ∈ directories (fs sh) →
     executeCd pathJoin pathResolve ["~/" +:+ sub] None sh
       = with_cwd (pathResolve (cwd sh) (pathJoin home sub)) sh).
Proof.
  intros Hhome Hne Htilde. split.
  - intros Hdir. unfold executeCd, expandTilde, chdir. simpl.
    rewrite Hhome. simpl. rewrite Htilde, andb_false_r.
    rewrite !bool_decide_true by done. simpl.
    rewrite !decide_True by done.
    rewrite !bool_decide_true by done. by split.
  - intros Hjoin Hdir. unfold executeCd, expandTilde, chdir. simpl.
    rewrite Hhome. simpl.
    rewrite !bool_decide_true by done. simpl.
    assert (startsWith EmptyString (EmptyString +:+ sub) = true) as ->
      by (by destruct sub).
    rewrite slice_tilde_slash. simpl.
    rewrite bool_decide_true by done. simpl.
    by rewrite decide_True by done.
Qed.

Lemma executeCd_tilde_witness :
  ("/home/u" ∈ directories (fs shell_home) →
     executeCd join_slash resolve_absolute [] None shell_home
       = with_cwd "/home/u" shell_home
     ∧ executeCd join_slash resolve_absolute ["~"] None shell_home
       = with_cwd "/home/u" shell_home)
  ∧ (join_slash "/home/u" "docs" ≠ EmptyString →
     "/home/u/docs" ∈ directories (fs shell_home) →
     executeCd join_slash resolve_absolute ["~/" +:+ "docs"] None shell_home
       = with_cwd "/home/u/docs" shell_home).
Proof.
  apply (executeCd_tilde join_slash resolve_absolute "/home/u" "docs"
           shell_home).
  - reflexivity.
  - discriminate.
  - reflexivity.
Defined.

Lemma executeBuiltin_untouched
    (pathJoin pathResolve : string → string → string)
    (findCommandInPath : string → option string)
    (command : string) (args : list string) (outputStream : option nat)
    (sh : Shell) :
  let sh' := executeBuiltin pathJoin pathResolve findCommandInPath
               command args None outputStream sh in
  children sh' = children sh
  ∧ writeStreams sh' = writeStreams sh
  ∧ onCompleteCalls sh' = onCompleteCalls sh
  ∧ HOME sh' = HOME sh
  ∧ (command ≠ "history" → manager sh' = manager sh ∧ fs sh' = fs sh)
  ∧ (command ≠ "cd" → cwd sh' = cwd sh).
Proof.
  unfold executeBuiltin, executeEcho, executePwd, executeCd, executeType,
    executeHistory, history_file_mode, chdir, writeOutput, end_if_stream.
  simpl.
  repeat first [ case_decide | case_match ]; simplify_eq; simpl;
    split_and!; try done.
Qed.

(** X16: what the internal commands leave alone.  Run without an input
    stream, no internal command spawns a child, opens a write stream,
    calls the completion callback or changes [HOME]; only [history]
    changes the history manager or the file system; only [cd] changes the
    working directory. *)
Theorem executeBuiltin_frame
    (pathJoin pathResolve : string → string → string)
    (findCommandInPath : string → option string)
    (command : string) (args : list string) (outputStream : option nat)
    (sh : Shell) :
  let sh' := executeBuiltin pathJoin pathResolve findCommandInPath
               command args None outputStream sh in
  children sh' = children sh
  ∧ writeStreams sh' = writeStreams sh
  ∧ onCompleteCalls sh' = onCompleteCalls sh
  ∧ HOME sh' = HOME sh
  ∧ (command ≠ "history" → manager sh' = manager sh ∧ fs sh' = fs sh)
  ∧ (command ≠ "cd" → cwd sh' = cwd sh).
Proof. apply executeBuiltin_untouched. Qed.

(** ** The executor, continued *)

(** X17: in a pipeline whose commands are all found, when every stage
    signals at most once, the completion callback has run at most once
    after any sequence of signals, and it has run exactly when every
    stage has signalled. *)
Theorem executePipeline_waits_for_every_stage
    (pathJoin pathResolve : string → string → string)
    (findCommandInPath : string → option string)
    (commands : list (list string)) (sh sh' : Shell) (run : PipelineRun)
    (es : list PipelineEvent) :
  executePipeline pathJoin pathResolve findCommandInPath commands sh
    = (sh', Some run) →
  Forall (handled run) es →
  NoDup (stage_of <$> es) →
  let calls := onCompleteCalls (pipeline_events es (sh', Some run)).1 in
  (calls = onCompleteCalls sh ∨ calls = S (onCompleteCalls sh))
  ∧ (calls = S (onCompleteCalls sh) ↔
     ∀ i, i < length commands → i ∈ stage_of <$> es).
Proof. apply executePipeline_completes_once. Qed.

Lemma executePipeline_waits_for_every_stage_witness :
  let st := executePipeline join_slash resolve_absolute find_ls
              [["ls"]; ["echo"; "x"]; ["ls"; "-l"]] shell0 in
  let calls :=
    onCompleteCalls (pipeline_events [Close 2; Settled 1; Close 0] st).1 in
  (calls = onCompleteCalls shell0 ∨ calls = S (onCompleteCalls shell0))
  ∧ (calls = S (onCompleteCalls shell0) ↔
     ∀ i, i < 3 → i ∈ stage_of <$> [Close 2; Settled 1; Close 0]).
Proof.
  apply (executePipeline_waits_for_every_stage join_slash resolve_absolute
           find_ls [["ls"]; ["echo"; "x"]; ["ls"; "-l"]] shell0).
  - reflexivity.
  - repeat constructor.
  - simpl. repeat constructor; intros H;
      repeat (apply elem_of_cons in H as [H|H]; [discriminate H|]);
      by apply elem_of_nil in H.
Defined.

Lemma alter_last {A} (f : A → A) (l : list A) (x : A) :
  alter f (length l) (l ++ [x]) = l ++ [f x].
Proof.
  rewrite <- (Nat.add_0_r (length l)). by rewrite alter_app_r.
Qed.

Lemma closed_snoc es e :
  closed (es ++ [e]) = closed es || bool_decide (e = ChildClose).
Proof.
  unfold closed. rewrite <- bool_decide_or. apply bool_decide_ext.
  rewrite elem_of_app, list_elem_of_singleton.
  split; (intros [?|?]; [by left|by right]).
Qed.

Lemma settled_snoc es e :
  settled (es ++ [e])
  = settled es || bool_decide (e = StreamFinish ∨ e = StreamError).
Proof.
  unfold settled. rewrite <- bool_decide_or. apply bool_decide_ext.
  rewrite !elem_of_app, !list_elem_of_singleton.
  split.
  - intros [[?|?]|[?|?]]; auto.
  - intros [[?|?]|[?|?]]; auto.
Qed.

Lemma single_events_snoc es e st :
  single_events (es ++ [e]) st = single_event e (single_events es st).
Proof. unfold single_events. by rewrite foldl_app. Qed.

(** The flags the handlers close over, after the events [es]. *)
Lemma single_events_run ws sh es :
  (single_events es
     (sh, Some (mkSingleRun ws false (if ws is Some _ then false else true)))).2
  = Some (mkSingleRun ws (closed es)
            (if ws is Some _ then settled es else true)).
Proof.
  induction es as [|e es IH] using rev_ind; [by destruct ws|].
  rewrite single_events_snoc, closed_snoc, settled_snoc.
  destruct (single_events es _) as [sh' run]. simpl in IH. subst run.
  destruct e, ws; simpl; rewrite ?orb_false_r, ?orb_true_r; done.
Qed.

(** One more event, and what it adds to the calls of the callback. *)
Lemma single_events_calls ws sh es e :
  onCompleteCalls
    (single_events (es ++ [e])
       (sh, Some (mkSingleRun ws false
                    (if ws is Some _ then false else true)))).1
  = onCompleteCalls
      (single_events es
         (sh, Some (mkSingleRun ws false
                      (if ws is Some _ then false else true)))).1
    + (if completes (if ws is Some _ then true else false) es e
       then 1 else 0).
Proof.
  rewrite single_events_snoc.
  pose proof (single_events_run ws sh es) as Hrun.
  destruct (single_events es _) as [sh' run]. simpl in Hrun. subst run.
  destruct e, ws; simpl; unfold maybeComplete; simpl;
    repeat case_match; simpl in *; try done; try lia; try congruence.
Qed.

Lemma orderly_snoc es e :
  orderly (es ++ [e]) →
  orderly es ∧ (e ∉ es) ∧ (∀ message, e ≠ ChildError message)
  ∧ (e = StreamFinish → StreamError ∉ es)
  ∧ (e = StreamError → StreamFinish ∉ es).
Proof.
  intros (Hnd & Herr & Hone).
  apply NoDup_app in Hnd as (Hnd & Hnot & _).
  split_and!.
  - split_and!; [done|..].
    + intros message Hin. apply (Herr message), elem_of_app. by left.
    + intros [Hf He]. apply Hone. rewrite !elem_of_app. by split; left.
  - intros Hin. apply (Hnot e Hin). by constructor.
  - intros message ->. apply (Herr message), elem_of_app. right.
    by constructor.
  - intros -> Hin. apply Hone. rewrite !elem_of_app. split; [right|by left].
    by constructor.
  - intros -> Hin. apply Hone. rewrite !elem_of_app. split; [by left|right].
    by constructor.
Qed.

(** X18: a single external command that is found.  It is spawned under
    its resolved path with the typed name as [argv0] and the given
    arguments, and the callback is not called while it is set up.
    Afterwards, for every sequence of events, one more event makes the
    callback run exactly in these cases: a [close] of the child, when
    there is no redirection target or the write stream has finished or
    failed before; a [finish] or [error] of the write stream, when the
    child has closed before; an [error] of the child, always and at once,
    whatever has or has not happened before (so an [error] followed by a
    [close] calls back twice when nothing is redirected).  Hence, when the
    child reports no [error] and each of [close] and the end of the write
    stream is seen at most once, the callback has run once if the child
    has closed and, with a redirection target, the stream has finished or
    failed, and not at all otherwise. *)
Theorem executeSingleCommand_completion
    (findCommandInPath : string → option string)
    (command fullPath : string) (args : list string)
    (info : RedirectionInfo) (sh : Shell) :
  findCommandInPath command = Some fullPath →
  let st := executeSingleCommand findCommandInPath command args info sh in
  let calls es := onCompleteCalls (single_events es st).1 in
  (∃ child, children st.1 = children sh ++ [child]
            ∧ childPath child = fullPath ∧ childArgs child = args
            ∧ childArgv0 child = command)
  ∧ calls [] = onCompleteCalls sh
  ∧ (∀ es e,
       calls (es ++ [e])
       = calls es + (if completes (redirects info) es e then 1 else 0))
  ∧ (∀ es, orderly es →
       calls es
       = onCompleteCalls sh
         + (if closed es && (negb (redirects info) || settled es)
            then 1 else 0)).
Proof.
  intros Hfound st calls.
  assert (∃ child, children st.1 = children sh ++ [child]
                   ∧ childPath child = fullPath ∧ childArgs child = args
                   ∧ childArgv0 child = command) as Hchild.
  { subst st. unfold executeSingleCommand. rewrite Hfound.
    destruct (hasRedirection info && truthy (redirectFile info)); simpl.
    - repeat case_match; simpl; rewrite ?alter_last; simpl;
        eexists; (split; [reflexivity|done]).
    - eexists; (split; [reflexivity|done]). }
  assert (∃ sh1 ws,
            st = (sh1, Some (mkSingleRun ws false
                               (if ws is Some _ then false else true)))
            ∧ onCompleteCalls sh1 = onCompleteCalls sh
            ∧ (if ws is Some _ then true else false) = redirects info)
    as (sh1 & ws & Hst & Hcalls & Hws).
  { subst st. unfold executeSingleCommand, redirects. rewrite Hfound.
    destruct (hasRedirection info && truthy (redirectFile info)); simpl.
    - repeat case_match; simpl;
        eexists _, (Some _); (split; [reflexivity|]); simpl; done.
    - eexists _, None. split; [reflexivity|]. done. }
  assert (∀ es e,
            calls (es ++ [e])
            = calls es + (if completes (redirects info) es e then 1 else 0))
    as Hstep.
  { intros es e. subst calls. simpl. rewrite Hst, <- Hws.
    apply single_events_calls. }
  assert (calls [] = onCompleteCalls sh) as Hnil.
  { subst calls. simpl. by rewrite Hst. }
  split; [done|]. split; [done|]. split; [done|].
  induction es as [|e es IH] using rev_ind; intros Hes.
  { rewrite Hnil. simpl. lia. }
  apply orderly_snoc in Hes as (Hes & Hnew & Herr & Hfin & Hfail).
  rewrite Hstep, (IH Hes), closed_snoc, settled_snoc.
  destruct e as [| | |message]; simpl.
  - assert (settled es = false) as ->.
    { unfold settled. apply bool_decide_false. intros [?|?]; [done|].
      by apply Hfin. }
    destruct (closed es), (redirects info); simpl; lia.
  - assert (settled es = false) as ->.
    { unfold settled. apply bool_decide_false. intros [?|?]; [|done].
      by apply Hfail. }
    destruct (closed es), (redirects info); simpl; lia.
  - assert (closed es = false) as ->
      by (unfold closed; by apply bool_decide_false).
    rewrite orb_false_r.
    destruct (redirects info), (settled es); simpl; lia.
  - by destruct (Herr message).
Qed.

Lemma executeSingleCommand_completion_witness :
  let info := mkRedirectionInfo true ["ls"; "-l"] (Some "out.txt") 1 false in
  let st := executeSingleCommand find_ls "ls" ["-l"] info shell0 in
  let calls es := onCompleteCalls (single_events es st).1 in
  (∃ child, children st.1 = children shell0 ++ [child]
            ∧ childPath child = "/bin/ls" ∧ childArgs child = ["-l"]
            ∧ childArgv0 child = "ls")
  ∧ calls [] = 0
  ∧ (∀ es e,
       calls (es ++ [e])
       = calls es + (if completes (redirects info) es e then 1 else 0))
  ∧ (∀ es, orderly es →
       calls es
       = 0 + (if closed es && (negb (redirects info) || settled es)
              then 1 else 0)).
Proof.
  apply (executeSingleCommand_completion find_ls "ls" "/bin/ls" ["-l"]
           (mkRedirectionInfo true ["ls"; "-l"] (Some "out.txt") 1 false)
           shell0).
  reflexivity.
Defined.

(** The callback of a single command over some sequences of events, with
    a redirection target and without one. *)
Example executeSingleCommand_events :
  let calls info es :=
    onCompleteCalls
      (single_events es
         (executeSingleCommand find_ls "ls" [] info shell0)).1 in
  let to_file := mkRedirectionInfo true ["ls"] (Some "out.txt") 1 false in
  let plain := mkRedirectionInfo false ["ls"] None 1 false in
  calls to_file [ChildClose] = 0
  ∧ calls to_file [StreamFinish] = 0
  ∧ calls to_file [ChildClose; StreamFinish] = 1
  ∧ calls to_file [StreamError; ChildClose] = 1
  ∧ calls to_file [ChildError "spawn EACCES"] = 1
  ∧ calls plain [ChildClose] = 1
  ∧ calls plain [ChildError "spawn EACCES"; ChildClose] = 2.
Proof. vm_compute. done. Qed.

Lemma add_sub_l n m : n + m - n = m.
Proof. lia. Qed.

(** X19: the wiring of a pipeline of three external commands that are all
    found.  Three children are spawned, each under its resolved path with
    its own arguments and the typed name as [argv0]; the first inherits
    its input and has its output piped, the middle one has both piped,
    the last has its input piped and inherits its output; standard error
    is inherited throughout; the output of each stage but the last is
    piped into the input of the next; no [PassThrough] is made, nothing is
    printed and the callback is not called. *)
Theorem executePipeline_three_external
    (pathJoin pathResolve : string → string → string)
    (findCommandInPath : string → option string)
    (a b c pa pb pc : string) (argsA argsB argsC : list string) (sh : Shell) :
  isBuiltin a = false → isBuiltin b = false → isBuiltin c = false →
  findCommandInPath a = Some pa → findCommandInPath b = Some pb →
  findCommandInPath c = Some pc →
  let n := length (children sh) in
  executePipeline pathJoin pathResolve findCommandInPath
    [a :: argsA; b :: argsB; c :: argsC] sh =
  (with_children
     (λ cs, cs ++
        [ mkChild pa argsA a (inherit, pipe, inherit)
            (PipedToStdin (n + 1)) Unread;
          mkChild pb argsB b (pipe, pipe, inherit)
            (PipedToStdin (n + 2)) Unread;
          mkChild pc argsC c (pipe, inherit, inherit) Unread Unread ]) sh,
   Some (mkPipelineRun
           [ExternalEntry n; ExternalEntry (n + 1); ExternalEntry (n + 2)] 0)).
Proof.
  intros Ha Hb Hc Hpa Hpb Hpc n. subst n.
  destruct sh as [con dir home files man pts cs ws calls].
  unfold executePipeline, spawn, with_children. simpl.
  rewrite Ha, Hpa. simpl. rewrite Hb, Hpb. simpl. rewrite Hc, Hpc. simpl.
  repeat first
    [ rewrite <- !app_assoc
    | rewrite length_app
    | rewrite length_alter
    | rewrite (alter_app_r_alt _ cs) by (simpl; lia)
    | rewrite (lookup_app_r cs) by (simpl; lia)
    | rewrite Nat.sub_diag
    | rewrite add_sub_l
    | rewrite drop_0
    | progress unfold with_children
    | progress simpl ].
  repeat f_equal; lia.
Qed.

Lemma executePipeline_three_external_witness :
  let n := length (children shell0) in
  executePipeline join_slash resolve_absolute find_ls
    [["ls"; "-l"]; ["ls"]; ["ls"; "-a"]] shell0 =
  (with_children
     (λ cs, cs ++
        [ mkChild "/bin/ls" ["-l"] "ls" (inherit, pipe, inherit)
            (PipedToStdin (n + 1)) Unread;
          mkChild "/bin/ls" [] "ls" (pipe, pipe, inherit)
            (PipedToStdin (n + 2)) Unread;
          mkChild "/bin/ls" ["-a"] "ls" (pipe, inherit, inherit)
            Unread Unread ]) shell0,
   Some (mkPipelineRun
           [ExternalEntry n; ExternalEntry (n + 1); ExternalEntry (n + 2)] 0)).
Proof.
  apply (executePipeline_three_external join_slash resolve_absolute find_ls
           "ls" "ls" "ls" "/bin/ls" "/bin/ls" "/bin/ls" ["-l"] [] ["-a"]
           shell0); reflexivity.
Defined.

(** X20: [echo] in front of an external command that is found.  One
    [PassThrough] is made; it holds the arguments joined by single spaces
    and a line feed, it is ended, and it is piped into the input of the
    child, which is spawned with its input piped and its output and error
    inherited.  Nothing reaches the terminal, and the callback waits for
    both stages. *)
Theorem executePipeline_echo_into_external
    (pathJoin pathResolve : string → string → string)
    (findCommandInPath : string → option string)
    (args : list string) (c pc : string) (argsC : list string) (sh : Shell) :
  isBuiltin c = false → findCommandInPath c = Some pc →
  let st := executePipeline pathJoin pathResolve findCommandInPath
              [ "echo" :: args; c :: argsC ] sh in
  passThroughs st.1 =
    passThroughs sh ++
    [mkStream (join " " args +:+ newline) true
       (PipedToStdin (length (children sh)))]
  ∧ children st.1 =
      children sh ++ [mkChild pc argsC c (pipe, inherit, inherit) Unread Unread]
  ∧ console st.1 = console sh
  ∧ st.2 = Some (mkPipelineRun
                   [BuiltinEntry; ExternalEntry (length (children sh))] 0)
  ∧ onCompleteCalls st.1 = onCompleteCalls sh.
Proof.
  intros Hc Hpc.
  destruct sh as [con dir home files man pts cs ws calls].
  unfold executePipeline, spawn. simpl.
  rewrite Hc, Hpc. simpl.
  unfold executeBuiltin, executeEcho, writeOutput, stream_end, stream_write,
    with_passThroughs, with_children.
  simpl.
  rewrite !drop_0.
  rewrite !alter_last. simpl.
  done.
Qed.

Lemma executePipeline_echo_into_external_witness :
  let st := executePipeline join_slash resolve_absolute find_ls
              [ "echo" :: ["a"; "b"]; "ls" :: ["-l"] ] shell0 in
  passThroughs st.1 =
    passThroughs shell0 ++
    [mkStream (join " " ["a"; "b"] +:+ newline) true
       (PipedToStdin (length (children shell0)))]
  ∧ children st.1 =
      children shell0 ++
      [mkChild "/bin/ls" ["-l"] "ls" (pipe, inherit, inherit) Unread Unread]
  ∧ console st.1 = console shell0
  ∧ st.2 = Some (mkPipelineRun
                   [BuiltinEntry; ExternalEntry (length (children shell0))] 0)
  ∧ onCompleteCalls st.1 = onCompleteCalls shell0.
Proof.
  apply (executePipeline_echo_into_external join_slash resolve_absolute
           find_ls ["a"; "b"] "ls" "/bin/ls" ["-l"] shell0); reflexivity.
Defined.

(** ** The search path *)

Lemma findCommandInPath_dirs_Some pathJoin statSync dirs name p :
  findCommandInPath_dirs pathJoin statSync dirs name = Some p ↔
  ∃ before dir after,
    dirs = before ++ dir :: after
    ∧ p = pathJoin dir name
    ∧ executable (statSync p) = true
    ∧ Forall (λ d, executable (statSync (pathJoin d name)) = false) before.
Proof.
  induction dirs as [|d dirs IH]; simpl.
  - split; [done|]. intros (before & dir & after & Heq & _).
    by destruct before.
  - destruct (executable (statSync (pathJoin d name))) eqn:Hd.
    + split.
      * intros ?; simplify_eq. by exists [], d, dirs.
      * intros (before & dir & after & Heq & -> & Hx & Hbefore).
        destruct before as [|d' before]; simplify_eq/=; [done|].
        apply Forall_cons in Hbefore as [Hd' _]. congruence.
    + rewrite IH. split.
      * intros (before & dir & after & -> & -> & Hx & Hbefore).
        exists (d :: before), dir, after. split_and!; try done.
        by apply Forall_cons.
      * intros (before & dir & after & Heq & -> & Hx & Hbefore).
        destruct before as [|d' before]; simplify_eq/=; [congruence|].
        apply Forall_cons in Hbefore as [_ Hbefore].
        by exists before, dir, after.
Qed.

Lemma findCommandInPath_dirs_None pathJoin statSync dirs name :
  findCommandInPath_dirs pathJoin statSync dirs name = None ↔
  Forall (λ d, executable (statSync (pathJoin d name)) = false) dirs.
Proof.
  induction dirs as [|d dirs IH]; simpl; [done|].
  destruct (executable (statSync (pathJoin d name))) eqn:Hd.
  - split; [done|]. intros [Hd' _]%Forall_cons. congruence.
  - rewrite IH. split; [intros ?; by apply Forall_cons|by intros [_ ?]%Forall_cons].
Qed.

(** X21: the first match wins.  [findCommandInPath] returns [p] exactly
    when [p] is the command name joined to some non-empty segment of
    [PATH], [p] is a regular file with an execute bit set, and no earlier
    segment gives such a file; it returns null exactly when no segment
    does, in particular when [PATH] is unset or empty.  The segments it
    tries are non-empty and hold no colon. *)
Theorem findCommandInPath_first_match
    (pathJoin : string → string → string) (statSync : string → option Stats)
    (PATH : option string) (name : string) :
  (∀ p, findCommandInPath pathJoin statSync PATH name = Some p ↔
     ∃ before dir after,
       pathDirs PATH = before ++ dir :: after
       ∧ p = pathJoin dir name
       ∧ executable (statSync p) = true
       ∧ Forall (λ d, executable (statSync (pathJoin d name)) = false) before)
  ∧ (findCommandInPath pathJoin statSync PATH name = None ↔
     Forall (λ d, executable (statSync (pathJoin d name)) = false)
       (pathDirs PATH))
  ∧ Forall (λ d, d ≠ EmptyString ∧ ¬ has_char ":"%char d) (pathDirs PATH)
  ∧ (truthy PATH = false →
     findCommandInPath pathJoin statSync PATH name = None).
Proof.
  unfold findCommandInPath. split_and!.
  - intros p. apply findCommandInPath_dirs_Some.
  - apply findCommandInPath_dirs_None.
  - unfold pathDirs. apply Forall_forall.
    intros d [Hne Hd]%list_elem_of_filter. split.
    + intros ->. unfold nonempty in Hne. simpl in Hne. lia.
    + pose proof (split_no_separator ":"%char
                    (if truthy PATH then default EmptyString PATH
                     else EmptyString)) as Hall.
      rewrite Forall_forall in Hall. by apply Hall.
  - intros Hpath. unfold pathDirs. by rewrite Hpath.
Qed.

Lemma land_execute_bits m :
  Z.land m 73 = 0%Z ↔
  Z.testbit m 0 = false ∧ Z.testbit m 3 = false ∧ Z.testbit m 6 = false.
Proof.
  split.
  - intros Hz.
    assert (∀ n, Z.testbit m n && Z.testbit 73 n = false) as Hbits.
    { intros n. rewrite <- Z.land_spec, Hz. apply Z.bits_0. }
    pose proof (Hbits 0%Z) as H0. pose proof (Hbits 3%Z) as H3.
    pose proof (Hbits 6%Z) as H6. simpl in *.
    rewrite andb_true_r in H0, H3, H6. done.
  - intros (H0 & H3 & H6). apply Z.bits_inj'. intros n Hn.
    rewrite Z.land_spec, Z.bits_0.
    destruct (decide (n = 0)%Z) as [->|]; [by rewrite H0|].
    destruct (decide (n = 1)%Z) as [->|]; [by rewrite andb_false_r|].
    destruct (decide (n = 2)%Z) as [->|]; [by rewrite andb_false_r|].
    destruct (decide (n = 3)%Z) as [->|]; [by rewrite H3|].
    destruct (decide (n = 4)%Z) as [->|]; [by rewrite andb_false_r|].
    destruct (decide (n = 5)%Z) as [->|]; [by rewrite andb_false_r|].
    destruct (decide (n = 6)%Z) as [->|]; [by rewrite H6|].
    assert (Z.testbit 73 n = false) as ->; [|by rewrite andb_false_r].
    apply Z.bits_above_log2; [lia|]. simpl. lia.
Qed.

(** X22: the permission test [stats.mode & 0o111].  A path counts as a
    command exactly when it exists, is a regular file, and at least one of
    the three execute bits of its mode (other, group, owner: bits 0, 3
    and 6) is set; read and write bits play no part. *)
Theorem executable_iff_execute_bit (stats : option Stats) :
  executable stats = true ↔
  ∃ st, stats = Some st ∧ isFile st = true
        ∧ (Z.testbit (mode st) 0 = true ∨ Z.testbit (mode st) 3 = true
           ∨ Z.testbit (mode st) 6 = true).
Proof.
  destruct stats as [st|]; [|split; [done|by intros (? & ? & _)]].
  unfold executable.
  rewrite andb_true_iff, bool_decide_eq_true, land_execute_bits.
  split.
  - intros [Hfile Hbits]. exists st. split_and!; try done.
    destruct (Z.testbit (mode st) 0) eqn:H0; [by left|].
    destruct (Z.testbit (mode st) 3) eqn:H3; [by right; left|].
    destruct (Z.testbit (mode st) 6) eqn:H6; [by right; right|].
    exfalso. by apply Hbits.
  - intros (st' & ? & Hfile & Hbits); simplify_eq. split; [done|].
    intros (H0 & H3 & H6). rewrite H0, H3, H6 in Hbits.
    by destruct Hbits as [?|[?|?]].
Qed.

Example executable_modes :
  executable (Some (mkStats true 493)) = true       (* 0o755 *)
  ∧ executable (Some (mkStats true 420)) = false    (* 0o644 *)
  ∧ executable (Some (mkStats true 64)) = true      (* 0o100 *)
  ∧ executable (Some (mkStats false 493)) = false   (* a directory *)
  ∧ executable None = false.
Proof. repeat split. Qed.

(** ** The longest common prefix *)

Lemma chars_inj s1 s2 : chars s1 = chars s2 → s1 = s2.
Proof.
  unfold chars. intros H.
  rewrite <- (String.string_of_list_ascii_of_string s1), H.
  apply String.string_of_list_ascii_of_string.
Qed.

Lemma chars_length s : length (chars s) = String.length s.
Proof. induction s as [|c s IH]; simpl; [done|]. by rewrite IH. Qed.

Lemma startsWith_chars p s :
  startsWith p s = true ↔ chars p `prefix_of` chars s.
Proof.
  unfold startsWith. revert s.
  induction p as [|c p IH]; intros s.
  - split; [intros _; apply prefix_nil|]. by destruct s.
  - destruct s as [|c' s]; simpl.
    + split; [done|]. intros Hp. by apply prefix_nil_inv in Hp.
    + destruct (Ascii.ascii_dec c c') as [->|Hne].
      * rewrite IH. split; [apply prefix_cons|apply prefix_cons_inv_2].
      * split; [done|]. intros Hp. by apply prefix_cons_inv_1 in Hp.
Qed.

Lemma chars_substring n s :
  chars (String.substring 0 n s) = take n (chars s).
Proof.
  revert n. induction s as [|c s IH]; intros [|n]; simpl; try done.
  by rewrite IH.
Qed.

Lemma chars_dropLast p :
  chars (dropLast p) = take (length (chars p) - 1) (chars p).
Proof. unfold dropLast. by rewrite chars_substring, chars_length. Qed.

Lemma prefix_of_shorter (q p : list ascii) :
  q `prefix_of` p → q ≠ p → q `prefix_of` take (length p - 1) p.
Proof.
  intros [k ->] Hne. destruct k as [|x k]; [by rewrite app_nil_r in Hne|].
  rewrite take_app_ge by (rewrite length_app; simpl; lia).
  by apply prefix_app_r.
Qed.

Lemma shrinkPrefix_meets fuel :
  ∀ s p0 p,
    String.length p ≤ fuel →
    chars p `prefix_of` chars p0 →
    (∀ q, q `prefix_of` chars p0 → q `prefix_of` chars s →
          q `prefix_of` chars p) →
    meets (chars (default EmptyString (shrinkPrefix fuel s p)))
      (chars p0) (chars s).
Proof.
  induction fuel as [|fuel IH]; intros s p0 p Hlen Hp Hmax.
  - destruct p; [|simpl in Hlen; lia]. simpl.
    split_and!; [apply prefix_nil|apply prefix_nil|done].
  - simpl. destruct (startsWith p s) eqn:Hstart; simpl.
    + apply startsWith_chars in Hstart. by split_and!.
    + assert (∀ q, q `prefix_of` chars p0 → q `prefix_of` chars s →
                   q `prefix_of` chars (dropLast p)) as Hmax'.
      { intros q Hq0 Hqs. rewrite chars_dropLast.
        apply prefix_of_shorter; [by apply Hmax|].
        intros ->. apply startsWith_chars in Hqs. congruence. }
      case_decide as Hempty.
      * rewrite Hempty in Hmax'. simpl.
        split_and!; [apply prefix_nil|apply prefix_nil|done].
      * apply IH; [|by etrans; [|exact Hp];
                     rewrite chars_dropLast; apply prefix_take|done].
        rewrite <- chars_length, chars_dropLast, length_take, chars_length.
        lia.
Qed.

Lemma commonPrefix_loop_meets others :
  ∀ seen p,
    Forall (λ s, chars p `prefix_of` chars s) seen →
    (∀ q, Forall (λ s, q `prefix_of` chars s) seen → q `prefix_of` chars p) →
    Forall (λ s, chars (commonPrefix_loop others p) `prefix_of` chars s)
      (seen ++ others)
    ∧ (∀ q, Forall (λ s, q `prefix_of` chars s) (seen ++ others) →
            q `prefix_of` chars (commonPrefix_loop others p)).
Proof.
  induction others as [|s others IH]; intros seen p Hseen Hmax.
  - simpl. by rewrite app_nil_r.
  - simpl.
    destruct (shrinkPrefix_meets (String.length p) s p p)
      as (Hrp & Hrs & Hrmax); [done|done|done|].
    assert (Forall (λ s', chars (default EmptyString
                                  (shrinkPrefix (String.length p) s p))
                          `prefix_of` chars s') (seen ++ [s])) as Hseen'.
    { apply Forall_app. split; [|by apply Forall_singleton].
      eapply Forall_impl; [exact Hseen|]. intros s' Hs'. simpl in *.
      by trans (chars p). }
    assert (∀ q, Forall (λ s', q `prefix_of` chars s') (seen ++ [s]) →
                 q `prefix_of`
                   chars (default EmptyString
                            (shrinkPrefix (String.length p) s p))) as Hmax'.
    { intros q Hq. apply Forall_app in Hq as [Hq Hqs].
      apply Forall_cons in Hqs as [Hqs _].
      apply Hrmax; [by apply Hmax|exact Hqs]. }
    destruct (shrinkPrefix (String.length p) s p) as [r|]; simpl in *.
    + replace (seen ++ s :: others) with ((seen ++ [s]) ++ others)
        by (by rewrite <- app_assoc).
      by apply IH.
    + split.
      * apply Forall_forall. intros ??. apply prefix_nil.
      * intros q Hq. apply Hmax'.
        apply Forall_app in Hq as [Hq [Hqs _]%Forall_cons].
        apply Forall_app. split; [done|by apply Forall_singleton].
Qed.

(** X23: [findLongestCommonPrefix] returns the longest common prefix.  For
    a list that is not empty, the result is a prefix of every string of
    the list, and every string that is a prefix of all of them is a prefix
    of the result; for the empty list the result is the empty string. *)
Theorem findLongestCommonPrefix_longest (strings : list string) :
  (strings ≠ [] →
     longest_common_prefix (findLongestCommonPrefix strings) strings)
  ∧ findLongestCommonPrefix [] = EmptyString.
Proof.
  split; [|done]. intros Hne.
  assert (Forall (λ s, chars (findLongestCommonPrefix strings)
                       `prefix_of` chars s) strings
          ∧ ∀ q, Forall (λ s, q `prefix_of` chars s) strings →
                 q `prefix_of` chars (findLongestCommonPrefix strings))
    as [Hall Hmax].
  { destruct strings as [|first others]; [done|].
    assert (findLongestCommonPrefix (first :: others)
            = commonPrefix_loop others first) as ->.
    { by destruct others. }
    apply (commonPrefix_loop_meets others [first] first).
    - apply Forall_cons. split; [reflexivity|constructor].
    - intros q Hq. apply Forall_cons in Hq as [Hq _]. exact Hq. }
  split.
  - eapply Forall_impl; [exact Hall|]. intros s Hs.
    by apply startsWith_chars.
  - intros q Hq. apply startsWith_chars, Hmax.
    eapply Forall_impl; [exact Hq|]. intros s Hs. by apply startsWith_chars.
Qed.

Example findLongestCommonPrefix_examples :
  findLongestCommonPrefix ["echo"; "ecryptfs"] = "ec"
  ∧ findLongestCommonPrefix ["hello"; "help"; "helmet"] = "hel"
  ∧ findLongestCommonPrefix ["cat"; "dog"] = EmptyString
  ∧ findLongestCommonPrefix ["pwd"] = "pwd".
Proof. repeat split. Qed.

(** ** The line handler *)

(** A line without pipe whose command is internal: the handler records
    the line, runs the command without streams and prompts. *)
Lemma onLine_runs_builtin
    (pathJoin pathResolve : string → string → string)
    (findCommandInPath : string → option string) (HISTFILE line : string)
    (command : string) (args : list string) (sh : Shell) :
  trim line ≠ "exit" →
  "|" ∉ CommandParser.parseCommandLine (trim line) →
  commandTokens (parseRedirection (CommandParser.parseCommandLine (trim line)))
    = command :: args →
  isBuiltin command = true →
  onLine pathJoin pathResolve findCommandInPath HISTFILE line sh
  = (onComplete
       (executeBuiltin pathJoin pathResolve findCommandInPath
          command args None None
          (with_history (addCommand (trim line) (manager sh), fs sh) sh)),
     BuiltinRan).
Proof.
  intros Hexit Hpipe Htokens Hbuiltin. unfold onLine.
  assert (CommandParser.parseCommandLine (trim line) ≠ []) as Hne.
  { intros Hnil. rewrite Hnil in Htokens. done. }
  case_decide as Hlen.
  { exfalso. apply Hne. destruct (trim line); [done|simpl in Hlen; lia]. }
  rewrite decide_False by done.
  rewrite decide_False
    by (by destruct (CommandParser.parseCommandLine (trim line))).
  rewrite decide_False by done.
  by rewrite Htokens, Hbuiltin.
Qed.

(** X24: an internal command entered with a redirection and no pipe.  The
    handler runs the command on the tokens before the operator, with no
    output stream: its output is appended to standard output, no write
    stream is opened and no child is spawned, and unless the command is
    [history] the file system is left as it was, so the target file is
    neither created nor written. *)
Theorem onLine_builtin_ignores_redirection
    (pathJoin pathResolve : string → string → string)
    (findCommandInPath : string → option string) (HISTFILE line : string)
    (command : string) (args : list string) (sh : Shell) :
  trim line ≠ "exit" →
  "|" ∉ CommandParser.parseCommandLine (trim line) →
  commandTokens (parseRedirection (CommandParser.parseCommandLine (trim line)))
    = command :: args →
  isBuiltin command = true →
  let sh1 := with_history (addCommand (trim line) (manager sh), fs sh) sh in
  let r := onLine pathJoin pathResolve findCommandInPath HISTFILE line sh in
  r = (onComplete
         (executeBuiltin pathJoin pathResolve findCommandInPath
            command args None None sh1), BuiltinRan)
  ∧ writeStreams r.1 = writeStreams sh
  ∧ children r.1 = children sh
  ∧ (command ≠ "history" → fs r.1 = fs sh)
  ∧ ∃ output, console r.1 = stdout_write output (console sh).
Proof.
  intros Hexit Hpipe Htokens Hbuiltin sh1 r.
  assert (r = (onComplete
                 (executeBuiltin pathJoin pathResolve findCommandInPath
                    command args None None sh1), BuiltinRan)) as Hr
    by by apply onLine_runs_builtin.
  rewrite Hr. split; [done|]. simpl.
  destruct (executeBuiltin_untouched pathJoin pathResolve findCommandInPath
              command args None sh1) as (Hch & Hws & _ & _ & Hfs & _).
  rewrite Hch, Hws. split_and!; try done.
  - intros Hcmd. by destruct (Hfs Hcmd) as [_ ->].
  - apply (executeBuiltin_stdout pathJoin pathResolve findCommandInPath
             command args None sh1).
Qed.

Lemma onLine_builtin_ignores_redirection_witness :
  let line := "echo hi > out.txt" in
  let sh1 := with_history (addCommand (trim line) (manager shell0), fs shell0)
               shell0 in
  let r := onLine join_slash resolve_absolute find_ls "hist" line shell0 in
  r = (onComplete
         (executeBuiltin join_slash resolve_absolute find_ls
            "echo" ["hi"] None None sh1), BuiltinRan)
  ∧ writeStreams r.1 = writeStreams shell0
  ∧ children r.1 = children shell0
  ∧ ("echo" ≠ "history" → fs r.1 = fs shell0)
  ∧ ∃ output, console r.1 = stdout_write output (console shell0).
Proof.
  apply (onLine_builtin_ignores_redirection join_slash resolve_absolute
           find_ls "hist" "echo hi > out.txt" "echo" ["hi"] shell0).
  - discriminate.
  - vm_compute. intros H.
    repeat (apply elem_of_cons in H as [H|H]; [discriminate H|]).
    by apply elem_of_nil in H.
  - reflexivity.
  - reflexivity.
Defined.

(** What the terminal shows for that line: the argument, not the file. *)
Example onLine_echo_redirected :
  let r := onLine join_slash resolve_absolute find_ls "hist"
             "echo hi > out.txt" shell0 in
  stdout (console r.1) = "hi" +:+ newline
  ∧ files (fs r.1) !! "out.txt" = None.
Proof. split; reflexivity. Qed.




Lemma appendToFile_saved F h fs :
  length (history h) ≤ lastSavedIndex h → appendToFile F h fs = (true, h, fs).
Proof. intros Hle. unfold appendToFile. by rewrite decide_True. Qed.

(** X26: leaving with [exit].  The line itself joins the history; when the
    history file can be written, the entries not saved so far, [exit]
    included, are appended to it, one per line, exactly once although
    [appendToFile] runs twice on the way out; no command is run and no
    prompt is printed. *)
Theorem onLine_exit_saves_history
    (pathJoin pathResolve : string → string → string)
    (findCommandInPath : string → option string) (HISTFILE line : string)
    (sh : Shell) :
  trim line = "exit" →
  HISTFILE ∉ readonly (fs sh) →
  lastSavedIndex (manager sh) ≤ length (history (manager sh)) →
  let r := onLine pathJoin pathResolve findCommandInPath HISTFILE line sh in
  r.2 = Exited
  ∧ file_bytes HISTFILE (fs r.1) =
      file_bytes HISTFILE (fs sh) +:+
      lines_text (drop (lastSavedIndex (manager sh))
                    (history (manager sh) ++ ["exit"]))
  ∧ children r.1 = children sh
  ∧ console r.1 = console sh
  ∧ onCompleteCalls r.1 = onCompleteCalls sh.
Proof.
  intros Htrim Hrw Hmark. unfold onLine. rewrite Htrim.
  rewrite decide_False by (simpl; lia).
  rewrite decide_True by done.
  unfold handleExit, saveHistory. simpl.
  destruct (appendToFile_appended_bytes HISTFILE
              (addCommand "exit" (manager sh)) (fs sh))
    as (h' & fs' & Happ & Hbytes & Hhist & Hm & _);
    [done|simpl; rewrite length_app; simpl; lia|].
  rewrite Happ. simpl.
  rewrite (appendToFile_saved HISTFILE h' fs') by (rewrite Hm, Hhist; done).
  simpl. split_and!; done.
Qed.

Lemma onLine_exit_saves_history_witness :
  let r := onLine join_slash resolve_absolute find_ls "hist" "exit"
             shell_after_three in
  r.2 = Exited
  ∧ file_bytes "hist" (fs r.1) =
      file_bytes "hist" (fs shell_after_three) +:+
      lines_text (drop (lastSavedIndex (manager shell_after_three))
                    (history (manager shell_after_three) ++ ["exit"]))
  ∧ children r.1 = children shell_after_three
  ∧ console r.1 = console shell_after_three
  ∧ onCompleteCalls r.1 = onCompleteCalls shell_after_three.
Proof.
  apply (onLine_exit_saves_history join_slash resolve_absolute find_ls
           "hist" "exit" shell_after_three).
  - reflexivity.
  - simpl. apply not_elem_of_empty.
  - simpl. lia.
Defined.

(** *** A run of the shell and its history file *)

Section SessionFacts.

Variable pathJoin : string → string → string.
Variable pathResolve : string → string → string.
Variable findCommandInPath : string → option string.
Variable HISTFILE : string.

Abbreviation run_lines :=
  (onLines pathJoin pathResolve findCommandInPath HISTFILE).





End SessionFacts.



(** Why lines that run [history] are left out above: [history -w] moves
    the marker past the entries entered so far, so the history file
    receives the later lines only. *)
Example session_history_w :
  file_bytes "hist"
    (fs (session join_slash resolve_absolute find_ls "hist"
           ["pwd"; "history -w /tmp/x"; "exit"] shell0))
  = "exit" +:+ newline.
Proof. reflexivity. Qed.

Lemma chars_app s1 s2 : chars (s1 +:+ s2) = chars s1 ++ chars s2.
Proof.
  induction s1 as [|c s1 IH]; [done|].
  change (String c s1 +:+ s2) with (String c (s1 +:+ s2)).
  unfold chars in *. simpl. by rewrite IH.
Qed.

Lemma string_snoc w :
  w ≠ EmptyString → ∃ w' c, w = w' +:+ str c.
Proof.
  induction w as [|a w IH]; [done|]. intros _.
  destruct w as [|b w].
  - by exists EmptyString, a.
  - destruct IH as (w' & c & Hw); [done|].
    exists (String a w'), c. by rewrite Hw.
Qed.

Lemma trimEnd_snoc s c :
  isWhiteSpace c = false → trimEnd (s +:+ str c) = s +:+ str c.
Proof.
  intros Hc. induction s as [|a s IH].
  - change (EmptyString +:+ str c) with (String c EmptyString).
    simpl. by rewrite Hc.
  - change (String a s +:+ str c) with (String a (s +:+ str c)).
    simpl. rewrite IH.
    destruct (s +:+ str c) eqn:Hs; [|done].
    by destruct s.
Qed.

Lemma trimStart_nonspace c s :
  isWhiteSpace c = false → trimStart (String c s) = String c s.
Proof. intros Hc. simpl. by rewrite Hc. Qed.

Lemma join_ends_nonspace ws :
  ws ≠ [] →
  Forall (λ w, w ≠ EmptyString
               ∧ Forall (λ c, isWhiteSpace c = false) (chars w)) ws →
  ∃ s c, join " " ws = s +:+ str c ∧ isWhiteSpace c = false.
Proof.
  induction ws as [|w ws IH]; [done|]. intros _ Hws.
  apply Forall_cons in Hws as [[Hne Hw] Hws].
  destruct ws as [|w2 ws].
  - destruct (string_snoc w Hne) as (w' & c & ->).
    exists w', c. split; [done|].
    rewrite chars_app, Forall_app in Hw. destruct Hw as [_ Hc].
    by apply Forall_cons in Hc as [Hc _].
  - destruct (IH ltac:(done) Hws) as (s & c & Hj & Hc).
    exists (w +:+ " " +:+ s), c. split; [|done].
    change (join " " (w :: w2 :: ws))
      with (w +:+ " " +:+ join " " (w2 :: ws)).
    by rewrite Hj, !string_app_assoc.
Qed.




(** ** Single quotes *)

Lemma quoted_char_step c tl toks cur :
  c ≠ SQUOTE →
  CommandParser.step (CommandParser.mkState (String c tl) toks cur true false)
  = CommandParser.mkState tl toks (cur +:+ str c) true false.
Proof.
  intros Hc. unfold CommandParser.step. simpl.
  rewrite (bool_decide_false (c = SQUOTE)) by done.
  by destruct (bool_decide (c = BACKSLASH)), (bool_decide (c = DQUOTE)).
Qed.

(** Between single quotes every character but the quote is appended. *)
Lemma run_single_quoted u :
  Forall (λ c, c ≠ SQUOTE) (chars u) →
  ∀ r toks cur,
    CommandParser.loop (String.length (u +:+ r))
      (CommandParser.mkState (u +:+ r) toks cur true false)
    = CommandParser.loop (String.length r)
        (CommandParser.mkState r toks (cur +:+ u) true false).
Proof.
  induction u as [|c u IH]; intros Hu r toks cur.
  - by rewrite string_app_nil_r.
  - apply Forall_cons in Hu as [Hc Hu].
    change (String c u +:+ r) with (String c (u +:+ r)).
    rewrite run_step, quoted_char_step by done. simpl CommandParser.rest.
    rewrite IH by done. by rewrite string_app_assoc.
Qed.

(** X28: single quotes keep everything.  A non-empty text without a single
    quote, whatever else it holds (spaces, tabs, double quotes,
    backslashes, operators), written between single quotes is one token,
    equal to the text; and the same holds when the closing quote is
    missing. *)
Theorem parseCommandLine_single_quoted (u : string) :
  u ≠ EmptyString → Forall (λ c, c ≠ SQUOTE) (chars u) →
  CommandParser.parseCommandLine (str SQUOTE +:+ u +:+ str SQUOTE) = [u]
  ∧ CommandParser.parseCommandLine (str SQUOTE +:+ u) = [u].
Proof.
  intros Hne Hu.
  destruct u as [|c u]; [done|].
  pose proof Hu as Hu'. apply Forall_cons in Hu' as [Hc _].
  assert (∀ r,
    CommandParser.loop (String.length (str SQUOTE +:+ String c u +:+ r))
      (CommandParser.init (str SQUOTE +:+ String c u +:+ r))
    = CommandParser.loop (String.length r)
        (CommandParser.mkState r [] (String c u) true false)) as Hopen.
  { intros r. unfold CommandParser.init.
    change (str SQUOTE +:+ String c u +:+ r)
      with (String SQUOTE (String c u +:+ r)).
    rewrite run_step.
    assert (CommandParser.step
              (CommandParser.mkState (String SQUOTE (String c u +:+ r)) []
                 EmptyString false false)
            = CommandParser.mkState (String c u +:+ r) [] EmptyString
                true false) as ->.
    { unfold CommandParser.step. simpl.
      by rewrite (bool_decide_false (c = SQUOTE)) by done. }
    simpl CommandParser.rest. by rewrite run_single_quoted. }
  unfold CommandParser.parseCommandLine. split.
  - rewrite Hopen. done.
  - rewrite <- (string_app_nil_r (String c u)) at 1 2.
    rewrite Hopen. done.
Qed.

Lemma parseCommandLine_single_quoted_witness :
  CommandParser.parseCommandLine
    (str SQUOTE +:+ "a | b  > c\d" +:+ str SQUOTE) = ["a | b  > c\d"]
  ∧ CommandParser.parseCommandLine (str SQUOTE +:+ "a | b  > c\d")
    = ["a | b  > c\d"].
Proof.
  apply (parseCommandLine_single_quoted "a | b  > c\d").
  - discriminate.
  - repeat constructor; discriminate.
Defined.

(** ** A pipeline from the keyboard *)

Lemma unsplit_words plan :
  Forall (Forall typed_word) plan → Forall typed_word (unsplit plan).
Proof.
  assert (typed_word "|") as Hpipe.
  { split; [split; [done|]|]; repeat constructor; discriminate. }
  induction plan as [|stage plan IH]; intros Hplan; [constructor|].
  apply Forall_cons in Hplan as [Hstage Hplan].
  destruct plan as [|stage2 plan]; [done|].
  change (unsplit (stage :: stage2 :: plan))
    with (stage ++ "|" :: unsplit (stage2 :: plan)).
  apply Forall_app. split; [done|]. apply Forall_cons. split; [done|].
  by apply IH.
Qed.

Lemma unsplit_has_pipe stage stage2 plan :
  "|" ∈ unsplit (stage :: stage2 :: plan).
Proof.
  change (unsplit (stage :: stage2 :: plan))
    with (stage ++ "|" :: unsplit (stage2 :: plan)).
  apply elem_of_app. right. by constructor.
Qed.

Lemma join_nonempty_words ws :
  ws ≠ [] → Forall typed_word ws → join " " ws ≠ EmptyString.
Proof.
  intros Hne Hws. destruct ws as [|w ws]; [done|].
  apply Forall_cons in Hws as [[[Hw _] _] _].
  destruct w; [done|]. by destruct ws.
Qed.

Lemma trim_typed_words ws :
  Forall typed_word ws → trim (join " " ws) = join " " ws.
Proof.
  intros Hws. destruct ws as [|w ws]; [done|].
  destruct (join_ends_nonspace (w :: ws)) as (s & c & Hj & Hc); [done| |].
  { eapply Forall_impl; [exact Hws|]. by intros w' [[? _] ?]. }
  unfold trim.
  assert (trimStart (join " " (w :: ws)) = join " " (w :: ws)) as ->.
  { apply Forall_cons in Hws as [[[Hw _] Hsp] _].
    destruct w as [|a w]; [done|].
    apply Forall_cons in Hsp as [Ha _].
    destruct ws; by apply trimStart_nonspace. }
  rewrite Hj. by apply trimEnd_snoc.
Qed.

(** X29: a pipeline from the keyboard reaches the executor as typed.  For
    a plan of two or more stages, each a non-empty list of words that are
    non-empty, free of white space, quotes and backslashes and different
    from [|], entering the stages separated by [ | ] records the line in
    the history and runs [executePipeline] on exactly that plan; no syntax
    error is printed. *)
Theorem onLine_pipeline_as_typed
    (pathJoin pathResolve : string → string → string)
    (findCommandInPath : string → option string) (HISTFILE : string)
    (stage stage2 : list string) (plan : list (list string)) (sh : Shell) :
  Forall (Forall typed_word) (stage :: stage2 :: plan) →
  Forall proper_stage (stage :: stage2 :: plan) →
  let line := join " " (unsplit (stage :: stage2 :: plan)) in
  let sh1 := with_history (addCommand line (manager sh), fs sh) sh in
  let r := onLine pathJoin pathResolve findCommandInPath HISTFILE line sh in
  let st := executePipeline pathJoin pathResolve findCommandInPath
              (stage :: stage2 :: plan) sh1 in
  r = (st.1, PipelineStarted st.2).
Proof.
  intros Hwords Hplan line sh1 r st.
  pose proof (unsplit_words _ Hwords) as Htyped.
  pose proof (unsplit_has_pipe stage stage2 plan) as Hpipe.
  assert (unsplit (stage :: stage2 :: plan) ≠ []) as Hne.
  { intros Hnil. rewrite Hnil in Hpipe. by apply elem_of_nil in Hpipe. }
  assert (trim line = line) as Htrim by by apply trim_typed_words.
  assert (CommandParser.parseCommandLine line
          = unsplit (stage :: stage2 :: plan)) as Htoks.
  { subst line. unfold CommandParser.parseCommandLine, CommandParser.init.
    rewrite plain_words_tokens; [done|].
    eapply Forall_impl; [exact Htyped|]. by intros w [? _]. }
  assert (line ≠ "exit") as Hexit.
  { intros Heq.
    assert (CommandParser.parseCommandLine line = ["exit"]) as Hparse
      by (by rewrite Heq).
    rewrite Htoks in Hparse. rewrite Hparse in Hpipe.
    apply elem_of_cons in Hpipe as [Hpipe|Hpipe]; [discriminate Hpipe|].
    by apply elem_of_nil in Hpipe. }
  subst r. unfold onLine. rewrite Htrim, Htoks.
  rewrite decide_False.
  2:{ pose proof (join_nonempty_words _ Hne Htyped) as Hj.
      fold line in Hj. destruct line; [done|simpl; lia]. }
  rewrite decide_False by done.
  rewrite decide_False
    by (by destruct (unsplit (stage :: stage2 :: plan))).
  rewrite decide_True by done.
  unfold dispatchPipeline.
  rewrite parsePipeline_of_unsplit by done.
  cbv beta iota zeta. rewrite decide_False by (simpl; lia).
  subst st sh1. by destruct sh.
Qed.

Lemma onLine_pipeline_as_typed_witness :
  let line := join " " (unsplit [["ls"; "-l"]; ["echo"; "x"]]) in
  let sh1 := with_history (addCommand line (manager shell0), fs shell0)
               shell0 in
  let r := onLine join_slash resolve_absolute find_ls "hist" line shell0 in
  let st := executePipeline join_slash resolve_absolute find_ls
              [["ls"; "-l"]; ["echo"; "x"]] sh1 in
  r = (st.1, PipelineStarted st.2).
Proof.
  apply (onLine_pipeline_as_typed join_slash resolve_absolute find_ls "hist"
           ["ls"; "-l"] ["echo"; "x"] [] shell0).
  - repeat constructor; discriminate.
  - repeat constructor; try discriminate;
      intros H; repeat (apply elem_of_cons in H as [H|H]; [discriminate H|]);
      by apply elem_of_nil in H.
Defined.

(** ** The text of [echo] read off the raw line *)

(** Every turn of the loop of [processEchoOutput] moves the index forward,
    so the loop ends and [remaining.length] turns reach the end. *)
Lemma echo_step_consumes st :
  Echo.rest st ≠ EmptyString →
  String.length (Echo.rest (Echo.step st)) < String.length (Echo.rest st).
Proof.
  destruct st as [r out inS inD inW]. simpl. intros Hr.
  destruct r as [|char tl]; [done|]. clear Hr.
  unfold Echo.step. simpl.
  pose proof (next_is_length SQUOTE tl) as HS.
  pose proof (next_is_length DQUOTE tl) as HD.
  repeat (case_match; simpl in *; subst; try lia; try (specialize (HS eq_refl));
          try (specialize (HD eq_refl)); try lia).
Qed.

Lemma echo_loop_consumes fuel st :
  String.length (Echo.rest st) ≤ fuel →
  Echo.rest (Echo.loop fuel st) = EmptyString.
Proof.
  revert st. induction fuel as [|fuel IH]; intros st Hlen; simpl.
  - destruct (Echo.rest st); [done|simpl in Hlen; lia].
  - destruct (Echo.rest st) as [|c tl] eqn:Hr; [done|].
    apply IH. pose proof (echo_step_consumes st) as Hstep.
    rewrite Hr in Hstep. simpl in *. specialize (Hstep ltac:(done)). lia.
Qed.

Lemma is_blank_inv c : is_blank c = true → c = SPACE ∨ c = TAB.
Proof.
  unfold is_blank. intros Hc. apply orb_true_iff in Hc as [Hc|Hc];
    apply bool_decide_eq_true in Hc; auto.
Qed.

Lemma plain_char_not_blank c : plain_char c → is_blank c = false.
Proof.
  intros (Hsp & Htab & _). unfold is_blank.
  by rewrite !bool_decide_false by done.
Qed.

Lemma chars_cons c s : chars (String c s) = c :: chars s.
Proof. done. Qed.

Lemma skipWhitespace_chars (P : ascii → Prop) s :
  Forall P (chars s) → Forall P (chars (skipWhitespace s)).
Proof.
  induction s as [|c s IH]; [done|]. rewrite chars_cons. intros Hs.
  simpl. destruct (is_blank c); [|done].
  apply Forall_cons in Hs as [_ Hs]. by apply IH.
Qed.

Lemma words_from_skipWhitespace s toks :
  words_from (skipWhitespace s) toks EmptyString
  = words_from s toks EmptyString.
Proof.
  induction s as [|c s IH]; [done|]. simpl.
  destruct (is_blank c) eqn:Hc; [done|]. simpl. by rewrite Hc.
Qed.

Lemma blank_char_step c tl toks cur :
  is_blank c = true →
  CommandParser.step (CommandParser.mkState (String c tl) toks cur false false)
  = if bool_decide (0 < String.length cur)
    then CommandParser.mkState (skipWhitespace tl) (toks ++ [cur])
           EmptyString false false
    else CommandParser.mkState (skipWhitespace tl) toks cur false false.
Proof.
  intros Hc. unfold CommandParser.step. simpl. rewrite Hc.
  by destruct (is_blank_inv c Hc) as [->| ->].
Qed.

(** Outside quotes and without backslashes the tokenizer cuts the line at
    its runs of blanks. *)
Lemma loop_words_from n :
  ∀ s toks cur,
    String.length s ≤ n → Forall unquoted_char (chars s) →
    CommandParser.finish
      (CommandParser.loop (String.length s)
         (CommandParser.mkState s toks cur false false))
    = words_from s toks cur.
Proof.
  induction n as [|n IH]; intros s toks cur Hlen Hs.
  - destruct s; [done|simpl in Hlen; lia].
  - destruct s as [|c tl]; [done|].
    rewrite chars_cons in Hs. apply Forall_cons in Hs as [Hc Hs].
    simpl in Hlen. rewrite run_step.
    destruct Hc as [Hc|[Hc _]].
    + rewrite blank_char_step by done. simpl words_from. rewrite Hc.
      pose proof (skipWhitespace_length tl) as Hskip.
      case_bool_decide as Hcur; simpl CommandParser.rest.
      * rewrite IH by (lia || by apply skipWhitespace_chars).
        apply words_from_skipWhitespace.
      * rewrite IH by (lia || by apply skipWhitespace_chars).
        assert (cur = EmptyString) as ->
          by (destruct cur; [done|simpl in Hcur; lia]).
        apply words_from_skipWhitespace.
    + rewrite plain_char_step by done. simpl CommandParser.rest.
      rewrite IH by (lia || done).
      simpl words_from. by rewrite plain_char_not_blank.
Qed.

Lemma echo_loop_collapse s :
  ∀ out inW,
    Forall unquoted_char (chars s) →
    Echo.output
      (Echo.loop (String.length s) (Echo.mkState s out false false inW))
    = collapse s out inW.
Proof.
  induction s as [|c s IH]; intros out inW Hs; [done|].
  rewrite chars_cons in Hs. apply Forall_cons in Hs as [Hc Hs].
  simpl Echo.loop. simpl collapse.
  destruct Hc as [Hc|[Hc _]].
  - rewrite Hc.
    assert (Echo.step (Echo.mkState (String c s) out false false inW)
            = Echo.mkState s (if inW then out else out +:+ " ")
                false false true) as ->.
    { unfold Echo.step. simpl. rewrite Hc.
      by destruct (is_blank_inv c Hc) as [->| ->], inW. }
    by apply IH.
  - rewrite (plain_char_not_blank c Hc).
    assert (Echo.step (Echo.mkState (String c s) out false false inW)
            = Echo.mkState s (out +:+ str c) false false false) as ->.
    { unfold Echo.step. simpl. rewrite (plain_char_not_blank c Hc).
      destruct Hc as (_ & _ & Hsq & Hdq & Hbs).
      by rewrite !bool_decide_false by done. }
    by apply IH.
Qed.

Lemma words_from_cons s t :
  ∀ toks cur, words_from s (t :: toks) cur = t :: words_from s toks cur.
Proof.
  induction s as [|c s IH]; intros toks cur; simpl.
  - by case_bool_decide.
  - destruct (is_blank c); [|done]. case_bool_decide; apply IH.
Qed.

Lemma join_snoc toks x :
  toks ≠ [] → join " " (toks ++ [x]) = join " " toks +:+ " " +:+ x.
Proof.
  induction toks as [|a toks IH]; [done|]. intros _.
  destruct toks as [|b toks]; [done|].
  change (join " " ((a :: b :: toks) ++ [x]))
    with (a +:+ " " +:+ join " " ((b :: toks) ++ [x])).
  rewrite IH by done.
  change (join " " (a :: b :: toks)) with (a +:+ " " +:+ join " " (b :: toks)).
  by rewrite !string_app_assoc.
Qed.

Lemma join_snoc_char toks cur c :
  join " " (toks ++ [cur]) +:+ str c = join " " (toks ++ [cur +:+ str c]).
Proof.
  destruct toks as [|a toks]; [done|].
  rewrite !join_snoc by done. by rewrite !string_app_assoc.
Qed.

Lemma trimEnd_cons_fixed c s :
  trimEnd (String c s) = String c s →
  trimEnd s = s ∧ (s = EmptyString → isWhiteSpace c = false).
Proof.
  simpl. destruct (trimEnd s) as [|c' t] eqn:Ht.
  - destruct (isWhiteSpace c) eqn:Hc; [done|]. intros Heq.
    by injection Heq as <-.
  - intros Heq. injection Heq as <-. split; [done|]. done.
Qed.

Lemma trimEnd_idemp s : trimEnd (trimEnd s) = trimEnd s.
Proof.
  induction s as [|c s IH]; [done|]. simpl.
  destruct (trimEnd s) as [|c' t] eqn:Ht.
  - destruct (isWhiteSpace c) eqn:Hc; [done|]. simpl. by rewrite Hc.
  - change (trimEnd (String c (String c' t)))
      with (match trimEnd (String c' t) with
            | EmptyString =>
                if isWhiteSpace c then EmptyString else String c EmptyString
            | String c'' t' => String c (String c'' t')
            end).
    by rewrite IH.
Qed.

Lemma trimEnd_head s c t :
  trimEnd s = String c t → ∃ x, s = String c x.
Proof.
  destruct s as [|a s]; [done|]. simpl.
  destruct (trimEnd s); [destruct (isWhiteSpace a)|];
    intros Heq; simplify_eq; eauto.
Qed.

Lemma trimStart_head s c x :
  trimStart s = String c x → isWhiteSpace c = false.
Proof.
  induction s as [|a s IH]; [done|]. simpl.
  destruct (isWhiteSpace a) eqn:Ha; [done|]. intros Heq. by simplify_eq.
Qed.

Lemma trimStart_chars (P : ascii → Prop) s :
  Forall P (chars s) → Forall P (chars (trimStart s)).
Proof.
  induction s as [|c s IH]; [done|]. rewrite chars_cons. intros Hs. simpl.
  destruct (isWhiteSpace c); [|done].
  apply Forall_cons in Hs as [_ Hs]. by apply IH.
Qed.

Lemma trimEnd_chars (P : ascii → Prop) s :
  Forall P (chars s) → Forall P (chars (trimEnd s)).
Proof.
  induction s as [|c s IH]; [done|]. rewrite chars_cons. intros Hs.
  apply Forall_cons in Hs as [Hc Hs]. specialize (IH Hs). simpl.
  destruct (trimEnd s) as [|c' t].
  - destruct (isWhiteSpace c); [done|]. by repeat constructor.
  - rewrite chars_cons. by constructor.
Qed.

Lemma unquoted_white_blank c :
  unquoted_char c → isWhiteSpace c = true → is_blank c = true.
Proof. intros [Hc|[_ Hc]] Hw; [done|congruence]. Qed.

Lemma blank_white c : is_blank c = true → isWhiteSpace c = true.
Proof. intros Hc. by destruct (is_blank_inv c Hc) as [->| ->]. Qed.

Lemma words_from_trimStart s toks :
  Forall unquoted_char (chars s) →
  words_from (trimStart s) toks EmptyString = words_from s toks EmptyString.
Proof.
  induction s as [|c s IH]; [done|]. rewrite chars_cons. intros Hs.
  apply Forall_cons in Hs as [Hc Hs]. simpl trimStart.
  destruct (isWhiteSpace c) eqn:Hw; [|done].
  simpl. rewrite (unquoted_white_blank c Hc Hw). simpl. by apply IH.
Qed.

Lemma words_from_trimEnd s :
  Forall unquoted_char (chars s) →
  ∀ toks cur, words_from (trimEnd s) toks cur = words_from s toks cur.
Proof.
  induction s as [|c s IH]; [done|]. rewrite chars_cons. intros Hs.
  apply Forall_cons in Hs as [Hc Hs]. specialize (IH Hs).
  intros toks cur. simpl trimEnd.
  destruct (trimEnd s) as [|c' t] eqn:Ht.
  - destruct (isWhiteSpace c) eqn:Hw.
    + simpl. rewrite (unquoted_white_blank c Hc Hw).
      case_bool_decide as Hcur; rewrite <- IH; simpl; [done|].
      by rewrite bool_decide_false.
    + assert (is_blank c = false) as Hb.
      { destruct (is_blank c) eqn:Hb; [|done].
        apply blank_white in Hb. congruence. }
      simpl. rewrite Hb. by rewrite <- IH.
  - simpl words_from at 2. rewrite <- !IH. done.
Qed.

(** The text written with single spaces is the words joined by single
    spaces, for a line that does not end in a blank. *)
Lemma collapse_words s :
  ∀ toks cur out inW,
    Forall unquoted_char (chars s) → trimEnd s = s →
    (s = EmptyString → inW = false) →
    (inW = false → cur ≠ EmptyString ∧ out = join " " (toks ++ [cur])) →
    (inW = true →
     cur = EmptyString ∧ toks ≠ [] ∧ out = join " " toks +:+ " ") →
    collapse s out inW = join " " (words_from s toks cur).
Proof.
  induction s as [|c s IH]; intros toks cur out inW Hs Hend He Hf Ht.
  - destruct (Hf (He eq_refl)) as [Hcur ->]. simpl.
    rewrite bool_decide_true; [done|]. destruct cur; [done|simpl; lia].
  - rewrite chars_cons in Hs. apply Forall_cons in Hs as [Hc Hs].
    apply trimEnd_cons_fixed in Hend as [Hend Hlast].
    simpl. destruct (is_blank c) eqn:Hb.
    + assert (s ≠ EmptyString) as Hne.
      { intros Hnil. apply Hlast in Hnil. apply blank_white in Hb.
        congruence. }
      destruct inW.
      * destruct (Ht eq_refl) as (-> & Htoks & ->). simpl.
        apply IH; try done.
      * destruct (Hf eq_refl) as [Hcur ->].
        rewrite bool_decide_true by (destruct cur; [done|simpl; lia]).
        apply IH; try done. intros _. split; [done|].
        split; [by destruct toks|done].
    + destruct inW.
      * destruct (Ht eq_refl) as (-> & Htoks & ->).
        apply IH; try done. intros _. split; [done|].
        rewrite join_snoc by done.
        by rewrite !string_app_assoc.
      * destruct (Hf eq_refl) as [Hcur ->].
        apply IH; try done. intros _. split; [by destruct cur|].
        apply join_snoc_char.
Qed.

(** X30: [processEchoOutput] and the tokenizer agree on lines without
    quotes and backslashes.  For a line [echo ] followed by a text whose
    characters are blanks or characters that are neither white space nor a
    quote nor a backslash, the text [processEchoOutput] computes from the
    raw line is the arguments of the tokenizer joined by single spaces,
    which is what [executeEcho] prints before its line feed. *)
Theorem processEchoOutput_joins_arguments (r : string) :
  Forall unquoted_char (chars r) →
  Echo.processEchoOutput ("echo " +:+ r)
  = join " " (tail (CommandParser.parseCommandLine ("echo " +:+ r))).
Proof.
  intros Hr.
  assert (tail (CommandParser.parseCommandLine ("echo " +:+ r))
          = words_from (trim r) [] EmptyString) as ->.
  { unfold CommandParser.parseCommandLine, CommandParser.init.
    rewrite (loop_words_from (String.length ("echo " +:+ r))); [|done|].
    2:{ change ("echo " +:+ r)
          with (String "e" (String "c" (String "h" (String "o"
                  (String " " r))))).
        rewrite !chars_cons. repeat apply Forall_cons_2; try done.
        - right. split; [|done]. by repeat split.
        - right. split; [|done]. by repeat split.
        - right. split; [|done]. by repeat split.
        - right. split; [|done]. by repeat split.
        - by left. }
    change (words_from ("echo " +:+ r) [] EmptyString)
      with (words_from r ["echo"] EmptyString).
    rewrite words_from_cons. simpl tail. unfold trim.
    rewrite words_from_trimEnd by by apply trimStart_chars.
    by rewrite words_from_trimStart. }
  unfold Echo.processEchoOutput.
  change ("echo " +:+ r)
    with (String "e" (String "c" (String "h" (String "o" (String " " r))))).
  change (indexOf "echo"
            (String "e" (String "c" (String "h" (String "o" (String " " r))))))
    with (Some 0).
  cbv beta iota.
  assert (slice (0 + 4)
            (String "e" (String "c" (String "h" (String "o" (String " " r)))))
          = String " " r) as ->.
  { unfold slice. simpl. by rewrite substring_all. }
  change (trim (String " " r)) with (trim r).
  assert (Forall unquoted_char (chars (trim r))) as Ht.
  { unfold trim. by apply trimEnd_chars, trimStart_chars. }
  assert (trimEnd (trim r) = trim r) as Hend by apply trimEnd_idemp.
  destruct (trim r) as [|c t] eqn:Htrim; [done|].
  rewrite decide_False by (simpl; lia).
  rewrite echo_loop_collapse by done.
  assert (is_blank c = false) as Hb.
  { unfold trim in Htrim.
    destruct (trimEnd_head _ _ _ Htrim) as [x Hx].
    apply trimStart_head in Hx.
    destruct (is_blank c) eqn:Hb; [|done].
    apply blank_white in Hb. congruence. }
  simpl. rewrite Hb.
  rewrite chars_cons in Ht. apply Forall_cons in Ht as [_ Ht].
  apply trimEnd_cons_fixed in Hend as [Hend _].
  apply collapse_words; done.
Qed.

Lemma processEchoOutput_joins_arguments_witness :
  Echo.processEchoOutput ("echo " +:+ "  a|b    > c  ")
  = join " "
      (tail (CommandParser.parseCommandLine ("echo " +:+ "  a|b    > c  "))).
Proof.
  apply (processEchoOutput_joins_arguments "  a|b    > c  ").
  unfold chars. simpl.
  repeat (apply Forall_cons_2;
          [first [by left | right; split; [by repeat split|done]]|]).
  apply Forall_nil_2.
Defined.
